(** * check_diff: a structural comparator for decoded JSON documents

    A shallow embedding of [src/check_diff.py].  The script decodes two JSON
    texts with [json.loads] and walks both results in lock-step with the
    recursive function [compare], printing one line per discrepancy.

    The embedding keeps the shape of the script:
    - decoded values are a tagged union ([Value]) of leaves, lists and
      insertion-ordered dictionaries;
    - Python's [==] / [!=] on decoded values is [py_eq] / [py_ne];
    - [print] is modelled by returning the printed lines, in order, as
      structured [Record]s (the kind of line, the path, and for a
      value mismatch the two operands that the line would show). *)

From Stdlib Require Import ZArith List String Ascii Bool Arith Lia.
From Stdlib Require Import Floats.SpecFloat.
From Stdlib Require Import Numbers.DecimalString.
From Stdlib Require Import Sorting.Permutation.
Import ListNotations.

Local Open Scope string_scope.
Local Open Scope list_scope.

(* ================================================================= *)
(** ** Leaves: what [json.loads] produces below the containers *)

(** A decoded leaf is [None], a [bool], an [int] (unbounded), a [float]
    or a [str].  Floats are Stdlib's [spec_float]: signed zeros, signed
    infinities, NaN, and finite values [(-1)^s * m * 2^e].  The decoder
    accepts the literals [NaN], [Infinity] and [-Infinity], so all of
    them are reachable. *)
Inductive Scalar : Type :=
| SNull
| SBool (b : bool)
| SInt (z : Z)
| SFloat (f : spec_float)
| SStr (s : string).

(** The numeric tower seen by [==]: [bool] is a subclass of [int]. *)
Inductive Number : Type :=
| NInt (z : Z)
| NFloat (f : spec_float).

Definition number_of (a : Scalar) : option Number :=
  match a with
  | SBool b => Some (NInt (Z.b2z b))
  | SInt z => Some (NInt z)
  | SFloat f => Some (NFloat f)
  | SNull | SStr _ => None
  end.

Definition signed (s : bool) (m : positive) : Z :=
  if s then Z.neg m else Z.pos m.

(** [int == float] compares the exact mathematical values. *)
Definition int_float_eq (z : Z) (f : spec_float) : bool :=
  match f with
  | S754_zero _ => (z =? 0)%Z
  | S754_finite s m e =>
      if (0 <=? e)%Z then (z =? signed s m * 2 ^ e)%Z
      else (z * 2 ^ (- e) =? signed s m)%Z
  | S754_infinity _ | S754_nan => false
  end.

(** [float == float] is the IEEE comparison: NaN equals nothing, the two
    zeros are equal, finite values are compared by value. *)
Definition float_eq (f g : spec_float) : bool :=
  match f, g with
  | S754_nan, _ | _, S754_nan => false
  | S754_zero _, S754_zero _ => true
  | S754_infinity s, S754_infinity t => Bool.eqb s t
  | S754_finite s m e, S754_finite t n d =>
      let c := Z.min e d in
      (signed s m * 2 ^ (e - c) =? signed t n * 2 ^ (d - c))%Z
  | _, _ => false
  end.

Definition number_eq (x y : Number) : bool :=
  match x, y with
  | NInt a, NInt b => (a =? b)%Z
  | NInt a, NFloat g => int_float_eq a g
  | NFloat f, NInt b => int_float_eq b f
  | NFloat f, NFloat g => float_eq f g
  end.

(** Python's [a == b] on two leaves. *)
Definition scalar_eq (a b : Scalar) : bool :=
  match a, b with
  | SNull, SNull => true
  | SStr s, SStr t => (s =? t)%string
  | _, _ =>
      match number_of a, number_of b with
      | Some x, Some y => number_eq x y
      | _, _ => false
      end
  end.

(* ================================================================= *)
(** ** Decoded values *)

(** A [dict] keeps its insertion order, so it is an association list;
    Python guarantees that its keys are pairwise distinct ([wf] below). *)
Unset Elimination Schemes.
Inductive Value : Type :=
| Leaf (a : Scalar)
| Sequence (items : list Value)
| Mapping (entries : list (string * Value)).
Set Elimination Schemes.

(** Induction on values, with the hypothesis for every member. *)
Section ValueInduction.
Variable P : Value -> Prop.
Hypothesis HLeaf : forall a, P (Leaf a).
Hypothesis HSequence : forall xs, Forall P xs -> P (Sequence xs).
Hypothesis HMapping :
  forall es, Forall (fun kv => P (snd kv)) es -> P (Mapping es).

Fixpoint Value_ind (v : Value) : P v :=
  match v with
  | Leaf a => HLeaf a
  | Sequence xs =>
      HSequence xs
        ((fix members (ys : list Value) : Forall P ys :=
            match ys with
            | [] => Forall_nil P
            | y :: ys' => Forall_cons y (Value_ind y) (members ys')
            end) xs)
  | Mapping es =>
      HMapping es
        ((fix members (ys : list (string * Value))
            : Forall (fun kv => P (snd kv)) ys :=
            match ys with
            | [] => Forall_nil _
            | y :: ys' => Forall_cons y (Value_ind (snd y)) (members ys')
            end) es)
  end.
End ValueInduction.

Definition keys {A : Type} (d : list (string * A)) : list string := map fst d.

(** [d[k]], with [None] standing for [KeyError]. *)
Fixpoint lookup {A : Type} (k : string) (d : list (string * A)) : option A :=
  match d with
  | [] => None
  | (k', v) :: d' => if (k =? k')%string then Some v else lookup k d'
  end.

(** [k in d]. *)
Definition has_key {A : Type} (k : string) (d : list (string * A)) : bool :=
  match lookup k d with Some _ => true | None => false end.

Definition is_nan (v : Value) : bool :=
  match v with
  | Leaf (SFloat S754_nan) => true
  | _ => false
  end.

(** Object identity, where it matters.  The equality of two containers
    compares their members with [PyObject_RichCompareBool], which answers
    "equal" for one and the same object before it tries [==].  Among
    decoded values that shortcut changes the answer only at NaN, and
    [json.loads] returns one shared float object (the decoder's constant
    [NaN]) for every NaN literal of every document. *)
Definition identical (x y : Value) : bool := is_nan x && is_nan y.

(** Pairwise test of two lists, stopping at the shorter one. *)
Fixpoint all2 (f : Value -> Value -> bool) (xs ys : list Value)
         {struct xs} : bool :=
  match xs with
  | [] => true
  | x :: xs' =>
      match ys with
      | [] => true
      | y :: ys' => f x y && all2 f xs' ys'
      end
  end.

(** Python's [l == r]. *)
Fixpoint py_eq (l r : Value) {struct l} : bool :=
  match l, r with
  | Leaf a, Leaf b => scalar_eq a b
  | Sequence ls, Sequence rs =>
      (List.length ls =? List.length rs)%nat
      && all2 (fun x y => identical x y || py_eq x y) ls rs
  | Mapping le, Mapping re =>
      (List.length le =? List.length re)%nat
      && forallb (fun kv =>
                    match lookup (fst kv) re with
                    | Some rv => identical (snd kv) rv || py_eq (snd kv) rv
                    | None => false
                    end) le
  | _, _ => false
  end.

(** Python's [l != r]. *)
Definition py_ne (l r : Value) : bool := negb (py_eq l r).

(** Member comparison inside containers. *)
Definition rich_eq (x y : Value) : bool := identical x y || py_eq x y.

(* ================================================================= *)
(** ** Printed lines *)

Inductive Record : Type :=
| Difference (path : string) (l r : Value)
    (** [Difference at <path>: <l> != <r>] *)
| MissingInRight (path : string)
    (** [Missing key in right: <path>] *)
| MissingInLeft (path : string)
    (** [Missing key in left: <path>] *)
| LengthMismatch (path : string).
    (** [Length mismatch at <path>] *)

(** [str(i)] for an index. *)
Definition str_nat (i : nat) : string := NilEmpty.string_of_uint (Nat.to_uint i).

(** [f"{path}.{k}"] *)
Definition key_path (path k : string) : string := path ++ "." ++ k.

(** [f"{path}[{i}]"] *)
Definition index_path (path : string) (i : nat) : string :=
  path ++ "[" ++ str_nat i ++ "]".

(* ================================================================= *)
(** ** The comparator *)

(** [for i in range(min(len(l), len(r))): body(i, l[i], r[i])] *)
Fixpoint for_indices (body : nat -> Value -> Value -> list Record)
         (i : nat) (ls rs : list Value) {struct ls} : list Record :=
  match ls with
  | [] => []
  | x :: ls' =>
      match rs with
      | [] => []
      | y :: rs' => body i x y ++ for_indices body (S i) ls' rs'
      end
  end.

(** [for k in l: if k in r: body(k, l[k], r[k]) else: print(missing)] *)
Fixpoint for_left_keys (body : string -> Value -> Value -> list Record)
         (path : string) (le re : list (string * Value)) {struct le}
  : list Record :=
  match le with
  | [] => []
  | kv :: le' =>
      match lookup (fst kv) re with
      | Some rv => body (fst kv) (snd kv) rv
      | None => [MissingInRight (key_path path (fst kv))]
      end ++ for_left_keys body path le' re
  end.

(** [for k in r: if k not in l: print(missing)] *)
Definition for_right_keys (path : string) (le re : list (string * Value))
  : list Record :=
  flat_map (fun k => if has_key k le then []
                     else [MissingInLeft (key_path path k)]) (keys re).

(** [if l != r: print(f"Difference at {path}: {l} != {r}")] *)
Definition own_record (path : string) (l r : Value) : list Record :=
  if py_ne l r then [Difference path l r] else [].

(** [if len(l) != len(r): print(f"Length mismatch at {path}")] *)
Definition length_record (path : string) (ls rs : list Value) : list Record :=
  if (List.length ls =? List.length rs)%nat then [] else [LengthMismatch path].

(** [compare(path, l, r)], lines 10 to 26: the value mismatch of the node
    itself, then the walk through the members when both are dictionaries
    or both are lists.  The recursion follows the members of [l]: the
    loop [for k in l] visits the entries of [l] in insertion order, and
    [l[k]] is the value of the entry being visited.  ([compare_within]
    below writes the subscripts out.) *)
Fixpoint compare (path : string) (l r : Value) {struct l} : list Record :=
  own_record path l r
  ++
  match l, r with
  | Mapping le, Mapping re =>
      for_left_keys (fun k lv rv => compare (key_path path k) lv rv) path le re
      ++ for_right_keys path le re
  | Sequence ls, Sequence rs =>
      length_record path ls rs
      ++ for_indices (fun i x y => compare (index_path path i) x y) 0 ls rs
  | _, _ => []
  end.

(* ================================================================= *)
(** ** Invariants of decoded values *)

Fixpoint distinct (ks : list string) : bool :=
  match ks with
  | [] => true
  | k :: ks' => negb (existsb (String.eqb k) ks') && distinct ks'
  end.

(** The keys of every dictionary inside the value are pairwise distinct. *)
Fixpoint wf (v : Value) : bool :=
  match v with
  | Leaf _ => true
  | Sequence xs => forallb wf xs
  | Mapping es => distinct (keys es) && forallb (fun kv => wf (snd kv)) es
  end.

(** No leaf of the value is a NaN. *)
Fixpoint nan_free (v : Value) : bool :=
  match v with
  | Leaf (SFloat S754_nan) => false
  | Leaf _ => true
  | Sequence xs => forallb nan_free xs
  | Mapping es => forallb (fun kv => nan_free (snd kv)) es
  end.

(** Nesting depth: a leaf has depth 0, a container one more than its
    deepest member. *)
Fixpoint depth (v : Value) : nat :=
  match v with
  | Leaf _ => 0
  | Sequence xs => S (fold_right (fun x m => Nat.max (depth x) m) 0 xs)
  | Mapping es => S (fold_right (fun kv m => Nat.max (depth (snd kv)) m) 0 es)
  end.

(** [child x v]: [x] is a member of the container [v]. *)
Inductive child : Value -> Value -> Prop :=
| child_item : forall x xs, In x xs -> child x (Sequence xs)
| child_entry : forall k x es, In (k, x) es -> child x (Mapping es).

(* ================================================================= *)
(** ** The comparator with a bound on its nesting *)

(** The same function written with the script's own loops and subscripts
    ([for k in l], [l[k]], [r[k]], [range(min(len(l), len(r)))], [l[i]],
    [r[i]]), every call of [compare] taking one of [frames] frames: the
    bound is on how deep the calls of [compare] itself nest (what the
    interpreter puts on its stack inside [!=] and [print] is not
    counted).  [None] is an exception: the bound is exceeded (a failing
    subscript would be one too, but the guards exclude it). *)

Definition bind {A B : Type} (m : option A) (f : A -> option B) : option B :=
  match m with
  | Some a => f a
  | None => None
  end.

Notation "x <- m ;; k" := (bind m (fun x => k))
  (at level 61, m at next level, right associativity).

(** Run the bodies of a loop in order and collect what they print. *)
Fixpoint for_each {A : Type} (body : A -> option (list Record)) (xs : list A)
  : option (list Record) :=
  match xs with
  | [] => Some []
  | x :: xs' =>
      out <- body x ;;
      rest <- for_each body xs' ;;
      Some (out ++ rest)
  end.

(** One activation of [compare]; [self] stands for the recursive calls. *)
Definition compare_step
           (self : string -> Value -> Value -> option (list Record))
           (path : string) (l r : Value) : option (list Record) :=
  let own := own_record path l r in
  match l, r with
  | Mapping le, Mapping re =>
      matched <- for_each
                   (fun k =>
                      if has_key k re then
                        lv <- lookup k le ;;
                        rv <- lookup k re ;;
                        self (key_path path k) lv rv
                      else Some [MissingInRight (key_path path k)])
                   (keys le) ;;
      Some (own ++ matched ++ for_right_keys path le re)
  | Sequence ls, Sequence rs =>
      items <- for_each
                 (fun i =>
                    x <- nth_error ls i ;;
                    y <- nth_error rs i ;;
                    self (index_path path i) x y)
                 (seq 0 (Nat.min (List.length ls) (List.length rs))) ;;
      Some (own ++ length_record path ls rs ++ items)
  | _, _ => Some own
  end.

Fixpoint compare_within (frames : nat) (path : string) (l r : Value)
  : option (list Record) :=
  match frames with
  | 0 => None
  | S n => compare_step (compare_within n) path l r
  end.

(* ================================================================= *)
(** ** The comparator on the object store *)

(** Python passes references: [l] and [r] name objects of the
    interpreter's store, and a [dict] or [list] holds references to its
    members.  [Store.compare] is the script's function on that store, in
    a state-and-exception monad over the store and the output stream.
    Its only primitives are the ones the script uses: reading an object,
    reading the value below a reference (for [!=] and for formatting a
    line) and [print]. *)
Module Store.

Definition addr : Type := nat.

Inductive Obj : Type :=
| OLeaf (a : Scalar)
| OList (items : list addr)
| ODict (entries : list (string * addr)).

Record World : Type := mkWorld {
  objects : list Obj;
  stdout : list Record
}.

Definition M (A : Type) : Type := World -> option (A * World).

Definition ret {A : Type} (a : A) : M A := fun w => Some (a, w).

Definition bind {A B : Type} (m : M A) (f : A -> M B) : M B :=
  fun w =>
    match m w with
    | Some (a, w') => f a w'
    | None => None
    end.

Definition raise {A : Type} : M A := fun _ => None.

Definition lift {A : Type} (o : option A) : M A :=
  fun w =>
    match o with
    | Some a => Some (a, w)
    | None => None
    end.

Notation "x <~ m ;; k" := (bind m (fun x => k))
  (at level 61, m at next level, right associativity).
Notation "m ;;; k" := (bind m (fun _ => k))
  (at level 61, right associativity).

Fixpoint all_some {A : Type} (xs : list (option A)) : option (list A) :=
  match xs with
  | [] => Some []
  | Some x :: xs' => option_map (cons x) (all_some xs')
  | None :: _ => None
  end.

(** The value below a reference, read to the given depth. *)
Fixpoint value_at (fuel : nat) (h : list Obj) (a : addr) : option Value :=
  match fuel with
  | 0 => None
  | S n =>
      match nth_error h a with
      | None => None
      | Some (OLeaf s) => Some (Leaf s)
      | Some (OList items) =>
          option_map Sequence (all_some (map (value_at n h) items))
      | Some (ODict entries) =>
          option_map Mapping
            (all_some (map (fun kv =>
                             option_map (pair (fst kv))
                                        (value_at n h (snd kv)))
                           entries))
      end
  end.

Definition entry_at (n : nat) (h : list Obj) (kv : string * addr)
  : option (string * Value) :=
  option_map (pair (fst kv)) (value_at n h (snd kv)).

(** Reading an object. *)
Definition load (a : addr) : M Obj :=
  fun w => lift (nth_error (objects w) a) w.

(** Reading a whole value, as [l != r] and [f"{l}"] do. *)
Definition snapshot (a : addr) : M Value :=
  fun w => lift (value_at (List.length (objects w)) (objects w) a) w.

(** [print]: the one operation that changes the world. *)
Definition print (r : Record) : M unit :=
  fun w => Some (tt, mkWorld (objects w) (stdout w ++ [r])).

Fixpoint for_each {A : Type} (body : A -> M unit) (xs : list A) : M unit :=
  match xs with
  | [] => ret tt
  | x :: xs' => body x ;;; for_each body xs'
  end.

Fixpoint compare (frames : nat) (path : string) (l r : addr) : M unit :=
  match frames with
  | 0 => raise
  | S n =>
      lv <~ snapshot l ;;
      rv <~ snapshot r ;;
      (if py_ne lv rv then print (Difference path lv rv) else ret tt) ;;;
      lo <~ load l ;;
      ro <~ load r ;;
      match lo, ro with
      | ODict le, ODict re =>
          for_each
            (fun k =>
               if has_key k re then
                 x <~ lift (lookup k le) ;;
                 y <~ lift (lookup k re) ;;
                 compare n (key_path path k) x y
               else print (MissingInRight (key_path path k)))
            (keys le) ;;;
          for_each
            (fun k =>
               if has_key k le then ret tt
               else print (MissingInLeft (key_path path k)))
            (keys re)
      | OList ls, OList rs =>
          (if (List.length ls =? List.length rs)%nat then ret tt
           else print (LengthMismatch path)) ;;;
          for_each
            (fun i =>
               x <~ lift (nth_error ls i) ;;
               y <~ lift (nth_error rs i) ;;
               compare n (index_path path i) x y)
            (seq 0 (Nat.min (List.length ls) (List.length rs)))
      | _, _ => ret tt
      end
  end.

(** The world after some more lines have been printed, and the
    computation that prints them. *)
Definition after (w : World) (out : list Record) : World :=
  mkWorld (objects w) (stdout w ++ out).

Definition say (out : list Record) : M unit :=
  fun w => Some (tt, after w out).

(** A computation that leaves every object as it found it and only
    appends to the output. *)
Definition read_only {A : Type} (m : M A) : Prop :=
  forall w a w',
    m w = Some (a, w') ->
    objects w' = objects w /\ exists out, stdout w' = stdout w ++ out.

End Store.

(* ================================================================= *)
(** ** Small values for the examples *)

Definition int (z : Z) : Value := Leaf (SInt z).
Definition str (s : string) : Value := Leaf (SStr s).
Definition true_v : Value := Leaf (SBool true).

(** The double [1.0]: mantissa [2^52], exponent [-52]. *)
Definition float_one : Value :=
  Leaf (SFloat (S754_finite false 4503599627370496 (-52))).

Definition nan : Value := Leaf (SFloat S754_nan).

(* ================================================================= *)
(** ** Decoding *)

(** [json.loads], for the part of the JSON grammar that the script's two
    literals use: objects, arrays, strings without escapes, integers and
    the constants.  Text outside that part is answered [NotModelled], so
    a [JSONDecodeError] here is one of the real decoder. *)
Module Json.

Inductive Res (A : Type) : Type :=
| Done (a : A) (rest : string)
| JSONDecodeError
| NotModelled.
Arguments Done {A} a rest.
Arguments JSONDecodeError {A}.
Arguments NotModelled {A}.

Definition quote : ascii := ascii_of_nat 34.
Definition backslash : ascii := ascii_of_nat 92.

Definition is_ws (c : ascii) : bool :=
  let n := nat_of_ascii c in
  (n =? 32)%nat || (n =? 9)%nat || (n =? 10)%nat || (n =? 13)%nat.

Definition is_digit (c : ascii) : bool :=
  let n := nat_of_ascii c in (48 <=? n)%nat && (n <=? 57)%nat.

Fixpoint skip_ws (s : string) : string :=
  match s with
  | String c s' => if is_ws c then skip_ws s' else s
  | EmptyString => s
  end.

(** The characters of a string literal, after its opening quote. *)
Fixpoint chars (s : string) : Res string :=
  match s with
  | EmptyString => JSONDecodeError
  | String c s' =>
      if Ascii.eqb c quote then Done EmptyString s'
      else if Ascii.eqb c backslash then NotModelled
      else if (nat_of_ascii c <? 32)%nat then JSONDecodeError
      else match chars s' with
           | Done t rest => Done (String c t) rest
           | JSONDecodeError => JSONDecodeError
           | NotModelled => NotModelled
           end
  end.

(** [s] without the prefix [p], if it starts with it. *)
Fixpoint after_prefix (p s : string) : option string :=
  match p, s with
  | EmptyString, _ => Some s
  | String a p', String b s' =>
      if Ascii.eqb a b then after_prefix p' s' else None
  | String _ _, EmptyString => None
  end.

(** A run of digits, read as a number. *)
Fixpoint digits (acc : Z) (s : string) : Z * string :=
  match s with
  | String c s' =>
      if is_digit c
      then digits (10 * acc + Z.of_nat (nat_of_ascii c - 48)) s'
      else (acc, s)
  | EmptyString => (acc, s)
  end.

Definition starts_fraction (s : string) : bool :=
  match s with
  | String c _ => Ascii.eqb c "."%char || Ascii.eqb c "e"%char
                  || Ascii.eqb c "E"%char
  | EmptyString => false
  end.

(** An optional sign, then [0] or a run of digits not starting with [0];
    a fraction or an exponent after it would make a float. *)
Definition integer (negative : bool) (s : string) : Res Value :=
  match s with
  | String c s' =>
      if is_digit c then
        let '(n, rest) := if Ascii.eqb c "0"%char then (0%Z, s')
                          else digits 0 s in
        if starts_fraction rest then NotModelled
        else Done (Leaf (SInt (if negative then (- n)%Z else n))) rest
      else JSONDecodeError
  | EmptyString => JSONDecodeError
  end.

Definition constant (s : string) : Res Value :=
  match after_prefix "null" s with
  | Some rest => Done (Leaf SNull) rest
  | None =>
  match after_prefix "true" s with
  | Some rest => Done (Leaf (SBool true)) rest
  | None =>
  match after_prefix "false" s with
  | Some rest => Done (Leaf (SBool false)) rest
  | None =>
  match after_prefix "NaN" s with
  | Some rest => Done (Leaf (SFloat S754_nan)) rest
  | None =>
  match after_prefix "Infinity" s with
  | Some rest => Done (Leaf (SFloat (S754_infinity false))) rest
  | None =>
  match after_prefix "-Infinity" s with
  | Some rest => Done (Leaf (SFloat (S754_infinity true))) rest
  | None =>
  match s with
  | String c s' => if Ascii.eqb c "-"%char then integer true s'
                   else integer false s
  | EmptyString => JSONDecodeError
  end end end end end end end.

(** [d[k] = v] on an insertion-ordered dictionary. *)
Fixpoint set_key (k : string) (v : Value) (d : list (string * Value))
  : list (string * Value) :=
  match d with
  | [] => [(k, v)]
  | (k', v') :: d' =>
      if (k =? k')%string then (k, v) :: d' else (k', v') :: set_key k v d'
  end.

(** The scanner.  [value] reads one value at the head of [s]; [members]
    reads the rest of an object from a key on, [items] the rest of an
    array from a value on.  [n] bounds the calls; the length of the text
    is always enough, each call consuming at least one character. *)
Fixpoint value (n : nat) (s : string) : Res Value :=
  match n with
  | 0 => NotModelled
  | S n' =>
      match s with
      | EmptyString => JSONDecodeError
      | String c s' =>
          if Ascii.eqb c quote then
            match chars s' with
            | Done t rest => Done (Leaf (SStr t)) rest
            | JSONDecodeError => JSONDecodeError
            | NotModelled => NotModelled
            end
          else if Ascii.eqb c "{"%char then
            match skip_ws s' with
            | String c' s'' =>
                if Ascii.eqb c' "}"%char then Done (Mapping []) s''
                else members n' (String c' s'') []
            | EmptyString => JSONDecodeError
            end
          else if Ascii.eqb c "["%char then
            match skip_ws s' with
            | String c' s'' =>
                if Ascii.eqb c' "]"%char then Done (Sequence []) s''
                else items n' (String c' s'') []
            | EmptyString => JSONDecodeError
            end
          else constant s
      end
  end

with members (n : nat) (s : string) (acc : list (string * Value))
  : Res Value :=
  match n with
  | 0 => NotModelled
  | S n' =>
      match s with
      | EmptyString => JSONDecodeError
      | String c s' =>
          if negb (Ascii.eqb c quote) then JSONDecodeError
          else
            match chars s' with
            | JSONDecodeError => JSONDecodeError
            | NotModelled => NotModelled
            | Done k rest =>
                match skip_ws rest with
                | EmptyString => JSONDecodeError
                | String c1 rest1 =>
                    if negb (Ascii.eqb c1 ":"%char) then JSONDecodeError
                    else
                      match value n' (skip_ws rest1) with
                      | JSONDecodeError => JSONDecodeError
                      | NotModelled => NotModelled
                      | Done v rest2 =>
                          let acc' := set_key k v acc in
                          match skip_ws rest2 with
                          | EmptyString => JSONDecodeError
                          | String c2 rest3 =>
                              if Ascii.eqb c2 "}"%char
                              then Done (Mapping acc') rest3
                              else if Ascii.eqb c2 ","%char
                              then members n' (skip_ws rest3) acc'
                              else JSONDecodeError
                          end
                      end
                end
            end
      end
  end

with items (n : nat) (s : string) (acc : list Value) : Res Value :=
  match n with
  | 0 => NotModelled
  | S n' =>
      match value n' s with
      | JSONDecodeError => JSONDecodeError
      | NotModelled => NotModelled
      | Done v rest =>
          match skip_ws rest with
          | EmptyString => JSONDecodeError
          | String c rest1 =>
              if Ascii.eqb c "]"%char then Done (Sequence (acc ++ [v])) rest1
              else if Ascii.eqb c ","%char
              then items n' (skip_ws rest1) (acc ++ [v])
              else JSONDecodeError
          end
      end
  end.

(** [json.loads(s)]: one value, then nothing but white space. *)
Definition loads (s : string) : Res Value :=
  match value (S (String.length s)) (skip_ws s) with
  | Done v rest =>
      match skip_ws rest with
      | EmptyString => Done v EmptyString
      | String _ _ => JSONDecodeError
      end
  | JSONDecodeError => JSONDecodeError
  | NotModelled => NotModelled
  end.

End Json.

(* ================================================================= *)
(** ** The script *)

(** The two literals are written here with an apostrophe wherever the
    script has a double quote; [dq] puts the double quotes back. *)
Fixpoint dq (s : string) : string :=
  match s with
  | EmptyString => EmptyString
  | String c s' =>
      String (if Ascii.eqb c "'"%char then Json.quote else c) (dq s')
  end.

Module Sample.

(** [left_str], line 3 of the script. *)
Definition left_str : string :=
  dq ("{'components': {'schemas': {'ErrorBodySchema': {'properties': "
      ++ "{'error_type': {'type': 'string'}, 'fields': {'items': {'': "
      ++ "'#/components/schemas/FieldErrorSchema'}, 'type': ['array', "
      ++ "'null']}, 'message': {'type': 'string'}}, 'required': "
      ++ "['error_type', 'message'], 'type': 'object'}, 'ErrorSchema': "
      ++ "{'properties': {'error': {'': "
      ++ "'#/components/schemas/ErrorBodySchema'}, 'request_id': {'type': "
      ++ "['string', 'null']}}, 'required': ['error'], 'type': 'object'}, "
      ++ "'FieldErrorSchema': {'properties': {'code': {'type': 'string'}, "
      ++ "'field': {'type': 'string'}, 'message': {'type': 'string'}}, "
      ++ "'required': ['field', 'code', 'message'], 'type': 'object'}, "
      ++ "'SnapshotUser': {'properties': {'id': {'format': 'int64', 'type': "
      ++ "'integer'}, 'username': {'type': 'string'}}, 'required': ['id', "
      ++ "'username'], 'type': 'object'}, 'ValidationErrorBodySchema': "
      ++ "{'properties': {'error_type': {'type': 'string'}, 'fields': "
      ++ "{'items': {'': '#/components/schemas/FieldErrorSchema'}, 'type': "
      ++ "'array'}, 'message': {'type': 'string'}}, 'required': "
      ++ "['error_type', 'message', 'fields'], 'type': 'object'}, "
      ++ "'ValidationErrorSchema': {'properties': {'error': {'': "
      ++ "'#/components/schemas/ValidationErrorBodySchema'}}, 'required': "
      ++ "['error'], 'type': 'object'}}, 'info': {'description': 'Test "
      ++ "Description', 'title': 'Snapshot API', 'version': '1.0.0'}, "
      ++ "'jsonSchemaDialect': "
      ++ "'https://json-schema.org/draft/2020-12/schema', 'openapi': '3.1.0', "
      ++ "'paths': {'/users': {'get': {'responses': {'200': {'content': "
      ++ "{'text/plain': {'schema': {'type': 'string'}}}, 'description': "
      ++ "'Successful response'}}}}, '/users/{id}': {'get': {'parameters': "
      ++ "[{'in': 'path', 'name': 'id', 'required': true, 'schema': {'type': "
      ++ "'string'}}], 'responses': {'200': {'content': {'text/plain': "
      ++ "{'schema': {'type': 'string'}}}, 'description': 'Successful "
      ++ "response'}}}}}}").

(** [right_str], line 5 of the script. *)
Definition right_str : string :=
  dq ("{'components': {'schemas': {'ErrorBodySchema': {'properties': "
      ++ "{'error_type': {'type': 'string'}, 'fields': {'items': {'': "
      ++ "'#/components/schemas/FieldErrorSchema'}, 'type': ['array', "
      ++ "'null']}, 'message': {'type': 'string'}}, 'required': "
      ++ "['error_type', 'message'], 'type': 'object'}, 'ErrorSchema': "
      ++ "{'properties': {'error': {'': "
      ++ "'#/components/schemas/ErrorBodySchema'}, 'request_id': {'type': "
      ++ "['string', 'null']}}, 'required': ['error'], 'type': 'object'}, "
      ++ "'FieldErrorSchema': {'properties': {'code': {'type': 'string'}, "
      ++ "'field': {'type': 'string'}, 'message': {'type': 'string'}}, "
      ++ "'required': ['field', 'code', 'message'], 'type': 'object'}, "
      ++ "'SnapshotUser': {'properties': {'id': {'format': 'int64', 'type': "
      ++ "'integer'}, 'username': {'type': 'string'}}, 'required': ['id', "
      ++ "'username'], 'type': 'object'}, 'ValidationErrorBodySchema': "
      ++ "{'properties': {'error_type': {'type': 'string'}, 'fields': "
      ++ "{'items': {'': '#/components/schemas/FieldErrorSchema'}, 'type': "
      ++ "'string'}, 'message': {'type': 'string'}}, 'required': "
      ++ "['error_type', 'message', 'fields'], 'type': 'object'}, "
      ++ "'ValidationErrorSchema': {'properties': {'error': {'': "
      ++ "'#/components/schemas/ValidationErrorBodySchema'}}, 'required': "
      ++ "['error'], 'type': 'object'}}, 'info': {'description': 'Test "
      ++ "Description', 'title': 'Snapshot API', 'version': '1.0.0'}, "
      ++ "'jsonSchemaDialect': "
      ++ "'https://json-schema.org/draft/2020-12/schema', 'openapi': '3.1.0', "
      ++ "'paths': {'/users': {'get': {'responses': {'200': {'content': "
      ++ "{'text/plain': {'schema': {'type': 'string'}}}, 'description': "
      ++ "'Successful response'}}}}, '/users/{id}': {'get': {'parameters': "
      ++ "[{'in': 'path', 'name': 'id', 'required': true, 'schema': {'type': "
      ++ "'string'}}], 'responses': {'200': {'content': {'text/plain': "
      ++ "{'schema': {'type': 'string'}}}, 'description': 'Successful "
      ++ "response'}}}}}}").

(** What [left_str] decodes to once its last brace is supplied. *)
Definition left : Value :=
  Mapping [("components", Mapping [("schemas", Mapping [("ErrorBodySchema",
  Mapping [("properties", Mapping [("error_type", Mapping [("type", str
  "string")]); ("fields", Mapping [("items", Mapping [(EmptyString, str
  "#/components/schemas/FieldErrorSchema")]); ("type", Sequence [str "array";
  str "null"])]); ("message", Mapping [("type", str "string")])]);
  ("required", Sequence [str "error_type"; str "message"]); ("type", str
  "object")]); ("ErrorSchema", Mapping [("properties", Mapping [("error",
  Mapping [(EmptyString, str "#/components/schemas/ErrorBodySchema")]);
  ("request_id", Mapping [("type", Sequence [str "string"; str "null"])])]);
  ("required", Sequence [str "error"]); ("type", str "object")]);
  ("FieldErrorSchema", Mapping [("properties", Mapping [("code", Mapping [
  ("type", str "string")]); ("field", Mapping [("type", str "string")]);
  ("message", Mapping [("type", str "string")])]); ("required", Sequence [str
  "field"; str "code"; str "message"]); ("type", str "object")]);
  ("SnapshotUser", Mapping [("properties", Mapping [("id", Mapping [("format",
  str "int64"); ("type", str "integer")]); ("username", Mapping [("type", str
  "string")])]); ("required", Sequence [str "id"; str "username"]); ("type",
  str "object")]); ("ValidationErrorBodySchema", Mapping [("properties",
  Mapping [("error_type", Mapping [("type", str "string")]); ("fields",
  Mapping [("items", Mapping [(EmptyString, str
  "#/components/schemas/FieldErrorSchema")]); ("type", str "array")]);
  ("message", Mapping [("type", str "string")])]); ("required", Sequence [str
  "error_type"; str "message"; str "fields"]); ("type", str "object")]);
  ("ValidationErrorSchema", Mapping [("properties", Mapping [("error", Mapping
  [(EmptyString, str "#/components/schemas/ValidationErrorBodySchema")])]);
  ("required", Sequence [str "error"]); ("type", str "object")])]); ("info",
  Mapping [("description", str "Test Description"); ("title", str
  "Snapshot API"); ("version", str "1.0.0")]); ("jsonSchemaDialect", str
  "https://json-schema.org/draft/2020-12/schema"); ("openapi", str "3.1.0");
  ("paths", Mapping [("/users", Mapping [("get", Mapping [("responses",
  Mapping [("200", Mapping [("content", Mapping [("text/plain", Mapping [
  ("schema", Mapping [("type", str "string")])])]); ("description", str
  "Successful response")])])])]); ("/users/{id}", Mapping [("get", Mapping [
  ("parameters", Sequence [Mapping [("in", str "path"); ("name", str "id");
  ("required", true_v); ("schema", Mapping [("type", str "string")])]]);
  ("responses", Mapping [("200", Mapping [("content", Mapping [("text/plain",
  Mapping [("schema", Mapping [("type", str "string")])])]); ("description",
  str "Successful response")])])])])])])].

(** What [right_str] decodes to once its last brace is supplied. *)
Definition right : Value :=
  Mapping [("components", Mapping [("schemas", Mapping [("ErrorBodySchema",
  Mapping [("properties", Mapping [("error_type", Mapping [("type", str
  "string")]); ("fields", Mapping [("items", Mapping [(EmptyString, str
  "#/components/schemas/FieldErrorSchema")]); ("type", Sequence [str "array";
  str "null"])]); ("message", Mapping [("type", str "string")])]);
  ("required", Sequence [str "error_type"; str "message"]); ("type", str
  "object")]); ("ErrorSchema", Mapping [("properties", Mapping [("error",
  Mapping [(EmptyString, str "#/components/schemas/ErrorBodySchema")]);
  ("request_id", Mapping [("type", Sequence [str "string"; str "null"])])]);
  ("required", Sequence [str "error"]); ("type", str "object")]);
  ("FieldErrorSchema", Mapping [("properties", Mapping [("code", Mapping [
  ("type", str "string")]); ("field", Mapping [("type", str "string")]);
  ("message", Mapping [("type", str "string")])]); ("required", Sequence [str
  "field"; str "code"; str "message"]); ("type", str "object")]);
  ("SnapshotUser", Mapping [("properties", Mapping [("id", Mapping [("format",
  str "int64"); ("type", str "integer")]); ("username", Mapping [("type", str
  "string")])]); ("required", Sequence [str "id"; str "username"]); ("type",
  str "object")]); ("ValidationErrorBodySchema", Mapping [("properties",
  Mapping [("error_type", Mapping [("type", str "string")]); ("fields",
  Mapping [("items", Mapping [(EmptyString, str
  "#/components/schemas/FieldErrorSchema")]); ("type", str "string")]);
  ("message", Mapping [("type", str "string")])]); ("required", Sequence [str
  "error_type"; str "message"; str "fields"]); ("type", str "object")]);
  ("ValidationErrorSchema", Mapping [("properties", Mapping [("error", Mapping
  [(EmptyString, str "#/components/schemas/ValidationErrorBodySchema")])]);
  ("required", Sequence [str "error"]); ("type", str "object")])]); ("info",
  Mapping [("description", str "Test Description"); ("title", str
  "Snapshot API"); ("version", str "1.0.0")]); ("jsonSchemaDialect", str
  "https://json-schema.org/draft/2020-12/schema"); ("openapi", str "3.1.0");
  ("paths", Mapping [("/users", Mapping [("get", Mapping [("responses",
  Mapping [("200", Mapping [("content", Mapping [("text/plain", Mapping [
  ("schema", Mapping [("type", str "string")])])]); ("description", str
  "Successful response")])])])]); ("/users/{id}", Mapping [("get", Mapping [
  ("parameters", Sequence [Mapping [("in", str "path"); ("name", str "id");
  ("required", true_v); ("schema", Mapping [("type", str "string")])]]);
  ("responses", Mapping [("200", Mapping [("content", Mapping [("text/plain",
  Mapping [("schema", Mapping [("type", str "string")])])]); ("description",
  str "Successful response")])])])])])])].

End Sample.

(** What running the script gives: the printed records, or the exception
    that stops it.  Lines 7 and 8 decode the two literals, line 28 calls
    [compare("root", left, right)]. *)
Definition script : Json.Res (list Record) :=
  match Json.loads Sample.left_str with
  | Json.Done l _ =>
      match Json.loads Sample.right_str with
      | Json.Done r _ => Json.Done (compare "root" l r) EmptyString
      | Json.JSONDecodeError => Json.JSONDecodeError
      | Json.NotModelled => Json.NotModelled
      end
  | Json.JSONDecodeError => Json.JSONDecodeError
  | Json.NotModelled => Json.NotModelled
  end.

(** [v[k]] for a key the mapping has. *)
Definition get (k : string) (v : Value) : Value :=
  match v with
  | Mapping es =>
      match lookup k es with
      | Some x => x
      | None => Leaf SNull
      end
  | _ => Leaf SNull
  end.

(** [v[k1][k2]...] *)
Definition at_keys (ks : list string) (v : Value) : Value :=
  fold_left (fun x k => get k x) ks v.

Definition is_difference (r : Record) : bool :=
  match r with
  | Difference _ _ _ => true
  | _ => false
  end.

Definition record_path (r : Record) : string :=
  match r with
  | Difference p _ _ | MissingInRight p | MissingInLeft p | LengthMismatch p => p
  end.

(** A small store: the lists [[1, 2]] (at 2) and [[1, 1, 2]] (at 3)
    sharing their members. *)
Definition small_world : Store.World :=
  Store.mkWorld
    [ Store.OLeaf (SInt 1); Store.OLeaf (SInt 2);
      Store.OList [0; 1]; Store.OList [0; 0; 1] ]
    [].

(* ================================================================= *)
(** ** Positions, and what one activation prints *)

(** One subscript: [v[k]] on a dictionary or [v[i]] on a list. *)
Inductive Step : Type :=
| Key (k : string)
| Index (i : nat).

Definition member (s : Step) (v : Value) : option Value :=
  match s, v with
  | Key k, Mapping es => lookup k es
  | Index i, Sequence xs => nth_error xs i
  | _, _ => None
  end.

(** [v[s1][s2]...] *)
Fixpoint descend (steps : list Step) (v : Value) : option Value :=
  match steps with
  | [] => Some v
  | s :: rest =>
      match member s v with
      | Some x => descend rest x
      | None => None
      end
  end.

(** The path the script builds on its way down the same subscripts. *)
Definition step_path (path : string) (s : Step) : string :=
  match s with
  | Key k => key_path path k
  | Index i => index_path path i
  end.

Definition path_of (path : string) (steps : list Step) : string :=
  fold_left step_path steps path.

(** The lines that the activation [compare(path, l, r)] prints itself,
    the recursive calls left out. *)
Definition node_records (path : string) (l r : Value) : list Record :=
  own_record path l r
  ++
  match l, r with
  | Mapping le, Mapping re =>
      for_left_keys (fun _ _ _ => []) path le re ++ for_right_keys path le re
  | Sequence ls, Sequence rs => length_record path ls rs
  | _, _ => []
  end.

(** A record with [prefix] put in front of its path. *)
Definition under (prefix : string) (r : Record) : Record :=
  match r with
  | Difference p a b => Difference (prefix ++ p) a b
  | MissingInRight p => MissingInRight (prefix ++ p)
  | MissingInLeft p => MissingInLeft (prefix ++ p)
  | LengthMismatch p => LengthMismatch (prefix ++ p)
  end.

(** A record as the call with the arguments exchanged reports it. *)
Definition mirror (r : Record) : Record :=
  match r with
  | Difference p a b => Difference p b a
  | MissingInRight p => MissingInLeft p
  | MissingInLeft p => MissingInRight p
  | LengthMismatch p => LengthMismatch p
  end.

(** How deep the calls of [compare(path, l, r)] nest below the first
    one: they go on only where both values are dictionaries, through the
    keys they share, or both are lists, through the indices they share. *)
Fixpoint max_indices (f : Value -> Value -> nat) (ls rs : list Value)
         {struct ls} : nat :=
  match ls with
  | [] => 0
  | x :: ls' =>
      match rs with
      | [] => 0
      | y :: rs' => Nat.max (f x y) (max_indices f ls' rs')
      end
  end.

Fixpoint max_left_keys (f : Value -> Value -> nat)
         (le re : list (string * Value)) {struct le} : nat :=
  match le with
  | [] => 0
  | kv :: le' =>
      Nat.max (match lookup (fst kv) re with
               | Some rv => S (f (snd kv) rv)
               | None => 0
               end)
              (max_left_keys f le' re)
  end.

(** The nesting depth of the calls, the first one not counted. *)
Fixpoint walk_depth (l r : Value) {struct l} : nat :=
  match l, r with
  | Mapping le, Mapping re => max_left_keys walk_depth le re
  | Sequence ls, Sequence rs =>
      max_indices (fun x y => S (walk_depth x y)) ls rs
  | _, _ => 0
  end.

(* ================================================================= *)
(** ** A document changed in one place *)

(** [xs[i] = v] for an index the list has. *)
Fixpoint set_nth (i : nat) (v : Value) (xs : list Value) : list Value :=
  match xs with
  | [] => []
  | x :: xs' =>
      match i with
      | 0 => v :: xs'
      | S i' => x :: set_nth i' v xs'
      end
  end.

(** [v[s] = x] *)
Definition set_member (s : Step) (x : Value) (v : Value) : Value :=
  match s, v with
  | Key k, Mapping es => Mapping (Json.set_key k x es)
  | Index i, Sequence xs => Sequence (set_nth i x xs)
  | _, _ => v
  end.

(** The value [v] with [x] put at the position [v[s1][s2]...], which
    [v] must have. *)
Fixpoint replace_at (steps : list Step) (x : Value) (v : Value)
  : option Value :=
  match steps with
  | [] => Some x
  | s :: rest =>
      match member s v with
      | Some m =>
          match replace_at rest x m with
          | Some m' => Some (set_member s m' v)
          | None => None
          end
      | None => None
      end
  end.

(** The value mismatches of the nodes passed on the way down the
    subscripts, the last node left out. *)
Fixpoint spine (path : string) (steps : list Step) (l r : Value)
  : list Record :=
  match steps with
  | [] => []
  | s :: rest =>
      Difference path l r
      :: match member s l, member s r with
         | Some x, Some y => spine (step_path path s) rest x y
         | _, _ => []
         end
  end.

(* ================================================================= *)
(** ** The same document with its keys in another order *)

(** [reordered l r]: [r] is [l] up to the order in which its
    dictionaries, at any depth, list their entries. *)
Unset Elimination Schemes.
Inductive reordered : Value -> Value -> Prop :=
| reordered_leaf : forall a, reordered (Leaf a) (Leaf a)
| reordered_sequence : forall xs ys,
    Forall2 reordered xs ys -> reordered (Sequence xs) (Sequence ys)
| reordered_mapping : forall le re,
    List.length le = List.length re ->
    (forall k v, In (k, v) le ->
                 exists v', lookup k re = Some v' /\ reordered v v') ->
    reordered (Mapping le) (Mapping re).
Set Elimination Schemes.

(** The number of nodes of a value. *)
Fixpoint size (v : Value) : nat :=
  match v with
  | Leaf _ => 1
  | Sequence xs => S (list_sum (map size xs))
  | Mapping es => S (list_sum (map (fun kv => size (snd kv)) es))
  end.

(** The size of the entry of [re] that the key of [kv] finds. *)
Definition hit (re : list (string * Value)) (kv : string * Value) : nat :=
  match lookup (fst kv) re with
  | Some rv => size rv
  | None => 0
  end.

(* ================================================================= *)
(** * Properties *)

(* ================================================================= *)
(** ** Dictionaries as association lists *)

Lemma lookup_In {A : Type} k (d : list (string * A)) v :
  lookup k d = Some v -> In (k, v) d.
Proof.
  induction d as [|[k' v'] d IH]; simpl; [discriminate|].
  destruct (String.eqb_spec k k') as [->|Hne].
  - intros [= ->]. now left.
  - intros H. right. auto.
Qed.

Lemma has_key_In {A : Type} k (d : list (string * A)) :
  has_key k d = true <-> In k (keys d).
Proof.
  unfold has_key.
  induction d as [|[k' v'] d IH]; simpl.
  - split; [discriminate | tauto].
  - destruct (String.eqb_spec k k') as [->|Hne].
    + split; auto.
    + rewrite IH. split; [auto|]. intros [H|H]; [congruence | assumption].
Qed.

Lemma has_key_false {A : Type} k (d : list (string * A)) :
  has_key k d = false <-> ~ In k (keys d).
Proof.
  rewrite <- has_key_In. destruct (has_key k d); split; congruence.
Qed.

Lemma lookup_None {A : Type} k (d : list (string * A)) :
  lookup k d = None <-> has_key k d = false.
Proof.
  unfold has_key. destruct (lookup k d); split; congruence.
Qed.

Lemma existsb_eqb_In k ks : existsb (String.eqb k) ks = true <-> In k ks.
Proof.
  rewrite existsb_exists. split.
  - intros [x [Hin Heq]]. apply String.eqb_eq in Heq. now subst.
  - intros Hin. exists k. split; [assumption | apply String.eqb_refl].
Qed.

Lemma distinct_NoDup ks : distinct ks = true <-> NoDup ks.
Proof.
  induction ks as [|k ks IH]; simpl.
  - split; [constructor | reflexivity].
  - rewrite andb_true_iff, negb_true_iff, IH. split.
    + intros [Hk Hks]. constructor; [|assumption].
      intros Hin. apply existsb_eqb_In in Hin. congruence.
    + intros H. inversion H as [|? ? Hk Hks]; subst. split; [|assumption].
      destruct (existsb (String.eqb k) ks) eqn:E; [|reflexivity].
      apply existsb_eqb_In in E. contradiction.
Qed.

Lemma lookup_distinct {A : Type} k v (d : list (string * A)) :
  distinct (keys d) = true -> In (k, v) d -> lookup k d = Some v.
Proof.
  induction d as [|[k' v'] d IH]; simpl; [tauto|].
  rewrite andb_true_iff, negb_true_iff. intros [Hk Hd] [Heq|Hin].
  - injection Heq as -> ->. now rewrite String.eqb_refl.
  - destruct (String.eqb_spec k k') as [->|Hne]; [|auto].
    exfalso. apply (in_map fst) in Hin. simpl in Hin.
    apply existsb_eqb_In in Hin. unfold keys in Hk. congruence.
Qed.

(* ================================================================= *)
(** ** Unfolding [compare] *)

Lemma compare_Leaf_l path a r :
  compare path (Leaf a) r = own_record path (Leaf a) r.
Proof. cbn [compare]. apply app_nil_r. Qed.

Lemma compare_Leaf_r path l b :
  compare path l (Leaf b) = own_record path l (Leaf b).
Proof. destruct l; cbn [compare]; apply app_nil_r. Qed.

Lemma compare_Sequence path ls rs :
  compare path (Sequence ls) (Sequence rs)
  = own_record path (Sequence ls) (Sequence rs)
    ++ length_record path ls rs
    ++ for_indices (fun i x y => compare (index_path path i) x y) 0 ls rs.
Proof. reflexivity. Qed.

Lemma compare_Mapping path le re :
  compare path (Mapping le) (Mapping re)
  = own_record path (Mapping le) (Mapping re)
    ++ for_left_keys (fun k lv rv => compare (key_path path k) lv rv)
                     path le re
    ++ for_right_keys path le re.
Proof. reflexivity. Qed.

Lemma compare_Sequence_Mapping path ls re :
  compare path (Sequence ls) (Mapping re)
  = own_record path (Sequence ls) (Mapping re).
Proof. cbn [compare]. apply app_nil_r. Qed.

Lemma compare_Mapping_Sequence path le rs :
  compare path (Mapping le) (Sequence rs)
  = own_record path (Mapping le) (Sequence rs).
Proof. cbn [compare]. apply app_nil_r. Qed.

Lemma flat_map_after_map {A B C : Type} (g : A -> B) (f : B -> list C) xs :
  flat_map f (map g xs) = flat_map (fun x => f (g x)) xs.
Proof. induction xs as [|x xs IH]; simpl; [reflexivity | now rewrite IH]. Qed.

(** The loop over indices, written as the script writes it. *)
Lemma for_indices_seq body d i ls rs :
  for_indices body i ls rs
  = flat_map (fun j => body (i + j) (nth j ls d) (nth j rs d))
             (seq 0 (Nat.min (List.length ls) (List.length rs))).
Proof.
  revert i rs. induction ls as [|x ls IH]; intros i rs; simpl; [reflexivity|].
  destruct rs as [|y rs]; simpl; [reflexivity|].
  rewrite Nat.add_0_r. f_equal.
  rewrite IH, <- seq_shift, flat_map_after_map.
  apply flat_map_ext. intros j. simpl. now rewrite Nat.add_succ_r.
Qed.

(** The loop over the left keys, written as the script writes it. *)
Lemma for_left_keys_suffix body path le re suf :
  (forall k v, In (k, v) suf -> lookup k le = Some v) ->
  for_left_keys body path suf re
  = flat_map (fun k =>
                match lookup k re with
                | Some rv =>
                    match lookup k le with
                    | Some lv => body k lv rv
                    | None => []
                    end
                | None => [MissingInRight (key_path path k)]
                end) (keys suf).
Proof.
  induction suf as [|[k v] suf IH]; intros H; simpl; [reflexivity|].
  rewrite IH by (intros; apply H; now right).
  f_equal. rewrite (H k v) by now left. reflexivity.
Qed.

Lemma for_left_keys_lookup body path le re :
  distinct (keys le) = true ->
  for_left_keys body path le re
  = flat_map (fun k =>
                match lookup k re with
                | Some rv =>
                    match lookup k le with
                    | Some lv => body k lv rv
                    | None => []
                    end
                | None => [MissingInRight (key_path path k)]
                end) (keys le).
Proof.
  intros H. apply for_left_keys_suffix.
  intros k v. now apply lookup_distinct.
Qed.

Lemma for_right_keys_filter path le re :
  for_right_keys path le re
  = map (fun k => MissingInLeft (key_path path k))
        (filter (fun k => negb (has_key k le)) (keys re)).
Proof.
  unfold for_right_keys.
  induction (keys re) as [|k ks IH]; simpl; [reflexivity|].
  rewrite IH. now destruct (has_key k le).
Qed.

(* ================================================================= *)
(** ** Equality of decoded values *)

Lemma float_eq_refl f : f <> S754_nan -> float_eq f f = true.
Proof.
  destruct f as [s|s| |s m e]; simpl; intros H.
  - reflexivity.
  - apply Bool.eqb_reflx.
  - congruence.
  - apply Z.eqb_refl.
Qed.

Lemma scalar_eq_refl a : a <> SFloat S754_nan -> scalar_eq a a = true.
Proof.
  destruct a as [|b|z|f|s]; simpl; intros H.
  - reflexivity.
  - apply Z.eqb_refl.
  - apply Z.eqb_refl.
  - apply float_eq_refl. congruence.
  - apply String.eqb_refl.
Qed.

Lemma scalar_eq_nan : scalar_eq (SFloat S754_nan) (SFloat S754_nan) = false.
Proof. reflexivity. Qed.

Lemma is_nan_spec v : is_nan v = true <-> v = Leaf (SFloat S754_nan).
Proof.
  split; [|now intros ->].
  destruct v as [[| | |[]|]| |]; simpl; congruence.
Qed.

Lemma nan_free_not_nan v : nan_free v = true -> is_nan v = false.
Proof. destruct v as [[| | |[]|]| |]; simpl; congruence. Qed.

Lemma nan_free_Leaf a : nan_free (Leaf a) = true <-> a <> SFloat S754_nan.
Proof. destruct a as [| | |[]|]; simpl; split; congruence. Qed.

Lemma rich_eq_py_eq x y :
  nan_free x = true \/ nan_free y = true -> rich_eq x y = py_eq x y.
Proof.
  unfold rich_eq, identical.
  intros [H|H]; apply nan_free_not_nan in H; rewrite H;
    [reflexivity | now rewrite andb_false_r].
Qed.

Lemma all2_same (f : Value -> Value -> bool) xs :
  Forall (fun x => f x x = true) xs -> all2 f xs xs = true.
Proof. induction 1 as [|x xs Hx _ IH]; simpl; [reflexivity | now rewrite Hx]. Qed.

(** A member always equals itself for the purposes of container equality;
    [==] itself is reflexive everywhere except at NaN. *)
Lemma eq_refl_both v :
  wf v = true ->
  rich_eq v v = true /\ (is_nan v = false -> py_eq v v = true).
Proof.
  assert (Hrich : forall v, (is_nan v = false -> py_eq v v = true) ->
                            rich_eq v v = true).
  { intros w H. unfold rich_eq, identical.
    destruct (is_nan w); [reflexivity | now rewrite H]. }
  induction v as [a|xs IH|es IH] using Value_ind; intros Hwf.
  - assert (H : is_nan (Leaf a) = false -> py_eq (Leaf a) (Leaf a) = true).
    { intros Hn. simpl. apply scalar_eq_refl. intros ->. discriminate. }
    split; [now apply Hrich | exact H].
  - assert (H : py_eq (Sequence xs) (Sequence xs) = true).
    { simpl. rewrite Nat.eqb_refl. simpl. apply all2_same.
      simpl in Hwf. rewrite forallb_forall in Hwf.
      rewrite Forall_forall in *. intros x Hx. now apply IH, Hwf. }
    split; [apply Hrich|]; auto.
  - assert (H : py_eq (Mapping es) (Mapping es) = true).
    { simpl. rewrite Nat.eqb_refl. simpl.
      simpl in Hwf. apply andb_true_iff in Hwf as [Hd Hwf].
      rewrite forallb_forall in *. rewrite Forall_forall in IH.
      intros [k v] Hin. simpl.
      rewrite (lookup_distinct k v es Hd Hin).
      apply (IH _ Hin). apply (Hwf _ Hin). }
    split; [apply Hrich|]; auto.
Qed.

Lemma py_eq_refl v : wf v = true -> is_nan v = false -> py_eq v v = true.
Proof. intros Hwf. now apply eq_refl_both. Qed.

Lemma own_record_nil path l r : own_record path l r = [] <-> py_eq l r = true.
Proof.
  unfold own_record, py_ne. destruct (py_eq l r); simpl; split; congruence.
Qed.

Lemma own_record_ne path l r :
  py_ne l r = true -> own_record path l r = [Difference path l r].
Proof. unfold own_record. now intros ->. Qed.

Lemma length_record_nil path ls rs :
  length_record path ls rs = [] <-> List.length ls = List.length rs.
Proof.
  unfold length_record.
  destruct (Nat.eqb_spec (List.length ls) (List.length rs)); split; congruence.
Qed.

Lemma for_right_keys_nil path le re :
  for_right_keys path le re = [] <-> incl (keys re) (keys le).
Proof.
  unfold for_right_keys, incl.
  induction (keys re) as [|k ks IH]; simpl.
  - split; [intros _ a [] | reflexivity].
  - destruct (has_key k le) eqn:E; simpl.
    + rewrite IH. apply has_key_In in E. split.
      * intros H a [<-|Ha]; auto.
      * intros H a Ha. apply H. now right.
    + split; [discriminate|]. intros H.
      apply has_key_false in E. exfalso. apply E, H. now left.
Qed.

(* ================================================================= *)
(** ** When [compare] prints nothing *)

Lemma nan_free_member_l x y xs ys :
  nan_free (Sequence (x :: xs)) = true \/ nan_free (Sequence (y :: ys)) = true ->
  (nan_free x = true \/ nan_free y = true)
  /\ (nan_free (Sequence xs) = true \/ nan_free (Sequence ys) = true).
Proof.
  simpl. rewrite !andb_true_iff. tauto.
Qed.

Lemma nan_free_entry k v es :
  nan_free (Mapping es) = true -> In (k, v) es -> nan_free v = true.
Proof.
  simpl. rewrite forallb_forall. intros H Hin. exact (H _ Hin).
Qed.

Lemma wf_entry k v es : wf (Mapping es) = true -> In (k, v) es -> wf v = true.
Proof.
  simpl. rewrite andb_true_iff, forallb_forall. intros [_ H] Hin.
  exact (H _ Hin).
Qed.

(** Equal-length dictionaries with distinct keys, one contained in the
    other, have the same keys. *)
Lemma keys_incl_back (le re : list (string * Value)) :
  distinct (keys le) = true ->
  List.length le = List.length re ->
  incl (keys le) (keys re) ->
  incl (keys re) (keys le).
Proof.
  intros Hd Hlen Hincl.
  apply NoDup_length_incl; [now apply distinct_NoDup | | assumption].
  unfold keys. rewrite !length_map. lia.
Qed.

Lemma compare_eq_nil l :
  forall r path,
    wf l = true ->
    nan_free l = true \/ nan_free r = true ->
    py_eq l r = true ->
    compare path l r = [].
Proof.
  induction l as [a|xs IH|es IH] using Value_ind; intros r path Hwf Hnan Heq.
  - rewrite compare_Leaf_l. now apply own_record_nil.
  - destruct r as [b|ys|re]; try discriminate.
    rewrite compare_Sequence.
    rewrite (proj2 (own_record_nil _ _ _) Heq).
    simpl in Heq. apply andb_true_iff in Heq as [Hlen Hall].
    apply Nat.eqb_eq in Hlen.
    rewrite (proj2 (length_record_nil path xs ys) Hlen). simpl.
    clear Hlen. simpl in Hwf.
    generalize 0 as i. revert ys Hnan Hall.
    induction IH as [|x xs Hx _ IHxs]; intros ys Hnan Hall i; [reflexivity|].
    destruct ys as [|y ys]; [reflexivity|].
    simpl in Hwf, Hall. apply andb_true_iff in Hwf as [Hwx Hwxs].
    apply andb_true_iff in Hall as [Hxy Hall].
    apply nan_free_member_l in Hnan as [Hn1 Hn2].
    change (identical x y || py_eq x y) with (rich_eq x y) in Hxy.
    rewrite rich_eq_py_eq in Hxy by assumption.
    simpl. rewrite (Hx y _ Hwx Hn1 Hxy). simpl. now apply IHxs.
  - destruct r as [b|ys|re]; try discriminate.
    rewrite compare_Mapping.
    rewrite (proj2 (own_record_nil _ _ _) Heq).
    simpl in Heq. apply andb_true_iff in Heq as [Hlen Hall].
    apply Nat.eqb_eq in Hlen. rewrite forallb_forall in Hall.
    assert (Hd : distinct (keys es) = true).
    { simpl in Hwf. now apply andb_true_iff in Hwf as [Hd _]. }
    assert (Hright : for_right_keys path es re = []).
    { apply for_right_keys_nil, keys_incl_back; try assumption.
      intros k Hk. apply in_map_iff in Hk as [[k' v] [<- Hin]]. simpl.
      specialize (Hall _ Hin). simpl in Hall.
      apply has_key_In. unfold has_key.
      destruct (lookup k' re); [reflexivity | discriminate]. }
    rewrite Hright, app_nil_r. simpl.
    assert (Hsub : forall kv, In kv es -> In kv es) by auto.
    revert Hsub. generalize es at 1 3 as suf.
    induction suf as [|[k v] suf IHsuf]; intros Hsub; [reflexivity|].
    simpl.
    assert (Hin : In (k, v) es) by (apply Hsub; now left).
    pose proof (Hall _ Hin) as Hkv. simpl in Hkv.
    destruct (lookup k re) as [rv|] eqn:Hl; [|discriminate].
    change (identical v rv || py_eq v rv) with (rich_eq v rv) in Hkv.
    rewrite Forall_forall in IH.
    assert (Hn : nan_free v = true \/ nan_free rv = true).
    { destruct Hnan as [Hn|Hn].
      - left. exact (nan_free_entry _ _ _ Hn Hin).
      - right. exact (nan_free_entry _ _ _ Hn (lookup_In _ _ _ Hl)). }
    rewrite rich_eq_py_eq in Hkv by assumption.
    rewrite (IH _ Hin rv _ (wf_entry _ _ _ Hwf Hin) Hn Hkv). simpl.
    apply IHsuf. intros kv Hkv'. apply Hsub. now right.
Qed.

Lemma compare_nil_py_eq path l r : compare path l r = [] -> py_eq l r = true.
Proof.
  intros H. apply (own_record_nil path).
  destruct l, r; cbn [compare] in H; now apply app_eq_nil in H.
Qed.

Lemma compare_ne_head path l r :
  py_ne l r = true ->
  exists rest, compare path l r = Difference path l r :: rest.
Proof.
  intros H.
  destruct l, r; cbn [compare]; rewrite (own_record_ne _ _ _ H);
    simpl; eexists; reflexivity.
Qed.

Lemma for_indices_nil_inv body i ls rs :
  for_indices body i ls rs = [] ->
  forall j x y, nth_error ls j = Some x -> nth_error rs j = Some y ->
                body (i + j) x y = [].
Proof.
  revert i rs. induction ls as [|a ls IH]; intros i rs H j x y Hx Hy.
  - destruct j; discriminate.
  - destruct rs as [|b rs]; [destruct j; discriminate|].
    simpl in H. apply app_eq_nil in H as [Hab Hrest].
    destruct j as [|j]; simpl in Hx, Hy.
    + injection Hx as <-. injection Hy as <-. now rewrite Nat.add_0_r.
    + rewrite Nat.add_succ_r. exact (IH (S i) rs Hrest j x y Hx Hy).
Qed.

Lemma for_left_keys_nil_inv body path le re :
  for_left_keys body path le re = [] ->
  forall kv, In kv le ->
    exists rv, lookup (fst kv) re = Some rv /\ body (fst kv) (snd kv) rv = [].
Proof.
  induction le as [|a le IH]; intros H kv Hin; [contradiction|].
  simpl in H. apply app_eq_nil in H as [Ha Hrest].
  destruct Hin as [<-|Hin]; [|now apply IH].
  destruct (lookup (fst a) re) as [rv|]; [|discriminate].
  now exists rv.
Qed.

(** Comparing a value with itself prints nothing only if it has no NaN. *)
Lemma compare_self_nil_nan_free v :
  forall path, wf v = true -> compare path v v = [] -> nan_free v = true.
Proof.
  induction v as [a|xs IH|es IH] using Value_ind; intros path Hwf H.
  - rewrite compare_Leaf_l in H. apply own_record_nil in H. simpl in H.
    apply nan_free_Leaf. intros ->. discriminate.
  - rewrite compare_Sequence in H.
    apply app_eq_nil in H as [_ H]. apply app_eq_nil in H as [_ H].
    simpl. apply forallb_forall. intros x Hx.
    rewrite Forall_forall in IH. simpl in Hwf. rewrite forallb_forall in Hwf.
    destruct (In_nth_error _ _ Hx) as [j Hj].
    apply (IH x Hx (index_path path (0 + j)) (Hwf x Hx)).
    exact (for_indices_nil_inv _ _ _ _ H j x x Hj Hj).
  - rewrite compare_Mapping in H.
    apply app_eq_nil in H as [_ H]. apply app_eq_nil in H as [H _].
    simpl. apply forallb_forall. intros [k v] Hin. simpl.
    rewrite Forall_forall in IH.
    destruct (for_left_keys_nil_inv _ _ _ _ H _ Hin) as [rv [Hl Hc]].
    simpl in Hl, Hc.
    assert (Hd : distinct (keys es) = true).
    { simpl in Hwf. now apply andb_true_iff in Hwf as [Hd _]. }
    rewrite (lookup_distinct k v es Hd Hin) in Hl. injection Hl as <-.
    exact (IH _ Hin _ (wf_entry _ _ _ Hwf Hin) Hc).
Qed.

(* ================================================================= *)
(** ** Reflexivity *)

(** C2, as stated, fails: a NaN differs from itself under [!=], so
    comparing the decoded literal [NaN] with itself prints a line. *)
Lemma compare_nan_with_itself :
  wf nan = true
  /\ compare "root" nan nan = [Difference "root" nan nan].
Proof. split; reflexivity. Qed.

(** C2 (amended): for every path [p] and every decoded value [v],
    [compare(p, v, v)] prints nothing exactly when no leaf of [v] is a
    NaN; in particular it prints nothing for every NaN-free [v]. *)
Theorem compare_reflexive path v :
  wf v = true ->
  (compare path v v = [] <-> nan_free v = true).
Proof.
  intros Hwf. split.
  - now apply compare_self_nil_nan_free.
  - intros Hn. apply compare_eq_nil; auto.
    apply py_eq_refl; [assumption | now apply nan_free_not_nan].
Qed.

Lemma compare_reflexive_witness :
  compare "root" (Mapping [("a", Sequence [int 1; str "x"]); ("b", true_v)])
                 (Mapping [("a", Sequence [int 1; str "x"]); ("b", true_v)])
  = [].
Proof.
  apply (proj2 (compare_reflexive "root"
                  (Mapping [("a", Sequence [int 1; str "x"]); ("b", true_v)])
                  eq_refl)).
  reflexivity.
Defined.

(* ================================================================= *)
(** ** Silence and equality *)

(** C9, as stated, fails: two lists holding the decoder's NaN are equal
    under [==] (the members are one object), yet the walk reaches the
    NaN and prints a line for it. *)
Lemma compare_equal_lists_of_nan :
  py_eq (Sequence [nan]) (Sequence [nan]) = true
  /\ compare "root" (Sequence [nan]) (Sequence [nan])
     = [Difference "root[0]" nan nan].
Proof. split; reflexivity. Qed.

(** C9 (amended): whenever [l != r], the first record printed is the
    value mismatch at [p] itself, so silence implies [l == r]; and when
    one of the two values has no NaN leaf, [compare(p, l, r)] prints
    nothing if and only if [l == r]. *)
Theorem compare_silent_iff_equal path l r :
  (py_ne l r = true ->
   exists rest, compare path l r = Difference path l r :: rest)
  /\ (compare path l r = [] -> py_eq l r = true)
  /\ (wf l = true ->
      nan_free l = true \/ nan_free r = true ->
      (compare path l r = [] <-> py_eq l r = true)).
Proof.
  split; [apply compare_ne_head|].
  split; [apply compare_nil_py_eq|].
  intros Hwf Hn. split; [apply compare_nil_py_eq|].
  now apply compare_eq_nil.
Qed.

Lemma compare_silent_iff_equal_witness :
  compare "root" (Sequence [int 1; true_v]) (Sequence [float_one; int 1]) = []
  /\ exists rest,
      compare "root" (int 1) (int 2) = Difference "root" (int 1) (int 2) :: rest.
Proof.
  split.
  - apply (proj2 (proj2 (proj2 (compare_silent_iff_equal "root"
             (Sequence [int 1; true_v]) (Sequence [float_one; int 1])))
             eq_refl (or_introl eq_refl))).
    reflexivity.
  - apply (proj1 (compare_silent_iff_equal "root" (int 1) (int 2))).
    reflexivity.
Defined.

(* ================================================================= *)
(** ** Numeric coercion *)

(** C10: [==] follows Python's numeric tower, so comparing the integer
    [1] with the float [1.0], or [True] with the integer [1] (in either
    order, and [False] with [0]), prints no value mismatch. *)
Theorem compare_numeric_coercion path :
  compare path (int 1) float_one = []
  /\ compare path float_one (int 1) = []
  /\ compare path true_v (int 1) = []
  /\ compare path (int 1) true_v = []
  /\ compare path true_v float_one = []
  /\ (forall b, compare path (Leaf (SBool b)) (int (Z.b2z b)) = []).
Proof.
  repeat split; try reflexivity.
  intros []; reflexivity.
Qed.

(* ================================================================= *)
(** ** Unequal containers: the aggregate record and the finer ones *)

Lemma for_indices_nil_all2 path i ls rs :
  for_indices (fun i x y => compare (index_path path i) x y) i ls rs = [] ->
  all2 (fun x y => identical x y || py_eq x y) ls rs = true.
Proof.
  revert i rs. induction ls as [|x ls IH]; intros i rs H; [reflexivity|].
  destruct rs as [|y rs]; [reflexivity|].
  simpl in *. apply app_eq_nil in H as [Hxy Hrest].
  rewrite (compare_nil_py_eq _ _ _ Hxy), orb_true_r. simpl.
  exact (IH _ _ Hrest).
Qed.

Lemma Sequence_members_nil path ls rs :
  length_record path ls rs
  ++ for_indices (fun i x y => compare (index_path path i) x y) 0 ls rs = [] ->
  py_eq (Sequence ls) (Sequence rs) = true.
Proof.
  intros H. apply app_eq_nil in H as [Hlen Hall].
  apply length_record_nil in Hlen. simpl.
  rewrite Hlen, Nat.eqb_refl. simpl.
  exact (for_indices_nil_all2 _ _ _ _ Hall).
Qed.

Lemma Mapping_members_nil path le re :
  distinct (keys le) = true ->
  distinct (keys re) = true ->
  for_left_keys (fun k lv rv => compare (key_path path k) lv rv) path le re
  ++ for_right_keys path le re = [] ->
  py_eq (Mapping le) (Mapping re) = true.
Proof.
  intros Hdl Hdr H. apply app_eq_nil in H as [Hleft Hright].
  apply for_right_keys_nil in Hright.
  pose proof (for_left_keys_nil_inv _ _ _ _ Hleft) as Hinv.
  assert (Hincl : incl (keys le) (keys re)).
  { intros k Hk. apply in_map_iff in Hk as [kv [<- Hin]].
    destruct (Hinv _ Hin) as [rv [Hl _]].
    apply has_key_In. unfold has_key. now rewrite Hl. }
  assert (Hlen : List.length le = List.length re).
  { apply distinct_NoDup in Hdl, Hdr.
    pose proof (NoDup_incl_length Hdl Hincl) as H1.
    pose proof (NoDup_incl_length Hdr Hright) as H2.
    unfold keys in H1, H2. rewrite !length_map in H1, H2. lia. }
  simpl. rewrite Hlen, Nat.eqb_refl. simpl.
  apply forallb_forall. intros kv Hin.
  destruct (Hinv _ Hin) as [rv [Hl Hc]]. rewrite Hl.
  now rewrite (compare_nil_py_eq _ _ _ Hc), orb_true_r.
Qed.

Lemma append_assoc (a b c : string) :
  ((a ++ b) ++ c = a ++ (b ++ c))%string.
Proof. induction a as [|x a IH]; simpl; [reflexivity | now rewrite IH]. Qed.

Lemma append_empty_r (a : string) : (a ++ EmptyString)%string = a.
Proof. induction a as [|x a IH]; simpl; [reflexivity | now rewrite IH]. Qed.

Lemma py_ne_false_iff l r : py_ne l r = true <-> py_eq l r = false.
Proof. unfold py_ne. destruct (py_eq l r); simpl; split; congruence. Qed.

(** C3: when both arguments are unequal mappings (with the distinct
    keys every dictionary has) or unequal sequences, [compare] prints
    the aggregate value mismatch at the parent path and then the records
    of its walk through the members (each member compared at
    [path.key], or at [path[index]]), of which there is at least one; so
    [{"x": {"y": 1}}] against [{"x": {"y": 2}}] gives a mismatch at
    [path], at [path.x] and at [path.x.y]. *)
Theorem compare_aggregate_and_detail path :
  (forall le re,
      distinct (keys le) = true ->
      distinct (keys re) = true ->
      py_ne (Mapping le) (Mapping re) = true ->
      exists finer,
        finer <> []
        /\ finer
           = for_left_keys
               (fun k lv rv => compare (path ++ "." ++ k)%string lv rv)
               path le re
             ++ for_right_keys path le re
        /\ compare path (Mapping le) (Mapping re)
           = Difference path (Mapping le) (Mapping re) :: finer)
  /\ (forall ls rs,
         py_ne (Sequence ls) (Sequence rs) = true ->
         exists finer,
           finer <> []
           /\ finer
              = length_record path ls rs
                ++ for_indices
                     (fun i x y =>
                        compare (path ++ "[" ++ str_nat i ++ "]")%string x y)
                     0 ls rs
           /\ compare path (Sequence ls) (Sequence rs)
              = Difference path (Sequence ls) (Sequence rs) :: finer)
  /\ compare path (Mapping [("x", Mapping [("y", int 1)])])
                  (Mapping [("x", Mapping [("y", int 2)])])
     = [ Difference path (Mapping [("x", Mapping [("y", int 1)])])
                         (Mapping [("x", Mapping [("y", int 2)])]);
         Difference (path ++ ".x")%string
                    (Mapping [("y", int 1)]) (Mapping [("y", int 2)]);
         Difference (path ++ ".x.y")%string (int 1) (int 2) ]
  /\ compare "root" (Mapping [("x", Mapping [("y", int 1)])])
                    (Mapping [("x", Mapping [("y", int 2)])])
     = [ Difference "root" (Mapping [("x", Mapping [("y", int 1)])])
                           (Mapping [("x", Mapping [("y", int 2)])]);
         Difference "root.x"
                    (Mapping [("y", int 1)]) (Mapping [("y", int 2)]);
         Difference "root.x.y" (int 1) (int 2) ].
Proof.
  split; [|split; [|split]].
  - intros le re Hdl Hdr Hne. eexists. split; [|split; [reflexivity|]].
    + intros Hnil. apply py_ne_false_iff in Hne.
      rewrite (Mapping_members_nil _ _ _ Hdl Hdr Hnil) in Hne. discriminate.
    + rewrite compare_Mapping, (own_record_ne _ _ _ Hne). reflexivity.
  - intros ls rs Hne. eexists. split; [|split; [reflexivity|]].
    + intros Hnil. apply py_ne_false_iff in Hne.
      rewrite (Sequence_members_nil _ _ _ Hnil) in Hne. discriminate.
    + rewrite compare_Sequence, (own_record_ne _ _ _ Hne). reflexivity.
  - assert (E : (path ++ ".x.y")%string = ((path ++ ".x") ++ ".y")%string).
    { symmetry. apply (append_assoc path ".x" ".y"). }
    rewrite E. reflexivity.
  - reflexivity.
Qed.

Lemma compare_aggregate_and_detail_witness :
  (exists finer,
      finer <> []
      /\ finer = [Difference "p.a" (int 1) (int 2)]
      /\ compare "p" (Mapping [("a", int 1)]) (Mapping [("a", int 2)])
         = Difference "p" (Mapping [("a", int 1)]) (Mapping [("a", int 2)])
           :: finer)
  /\ (exists finer,
         finer <> []
         /\ finer = [Difference "p[0]" (int 1) (int 2)]
         /\ compare "p" (Sequence [int 1]) (Sequence [int 2])
            = Difference "p" (Sequence [int 1]) (Sequence [int 2]) :: finer).
Proof.
  split.
  - exact (proj1 (compare_aggregate_and_detail "p")
                 [("a", int 1)] [("a", int 2)] eq_refl eq_refl eq_refl).
  - exact (proj1 (proj2 (compare_aggregate_and_detail "p"))
                 [int 1] [int 2] eq_refl).
Defined.

(* ================================================================= *)
(** ** Sequences of different lengths *)

(** C4: when both arguments are sequences of different lengths,
    [compare] prints the length mismatch at the sequence's path (after
    the value mismatch that unequal lengths imply) and still compares the
    overlapping prefix, index by index from [0] to
    [min(len(l), len(r)) - 1], the pair at index [i] at [path[i]]; so
    [[1, 2, 3]] against [[1, 9]] gives a length mismatch at the path, a
    value mismatch at [path[1]] ([2 != 9]), and nothing for index 2. *)
Theorem compare_length_mismatch path :
  (forall ls rs,
      List.length ls <> List.length rs ->
      compare path (Sequence ls) (Sequence rs)
      = Difference path (Sequence ls) (Sequence rs)
        :: LengthMismatch path
        :: flat_map (fun i =>
                       compare (path ++ "[" ++ str_nat i ++ "]")%string
                               (nth i ls (Leaf SNull))
                               (nth i rs (Leaf SNull)))
                    (seq 0 (Nat.min (List.length ls) (List.length rs))))
  /\ compare path (Sequence [int 1; int 2; int 3]) (Sequence [int 1; int 9])
     = [ Difference path (Sequence [int 1; int 2; int 3])
                         (Sequence [int 1; int 9]);
         LengthMismatch path;
         Difference (path ++ "[1]")%string (int 2) (int 9) ]
  /\ compare "root" (Sequence [int 1; int 2; int 3]) (Sequence [int 1; int 9])
     = [ Difference "root" (Sequence [int 1; int 2; int 3])
                           (Sequence [int 1; int 9]);
         LengthMismatch "root";
         Difference "root[1]" (int 2) (int 9) ].
Proof.
  split; [|split; reflexivity].
  intros ls rs Hlen.
  apply Nat.eqb_neq in Hlen.
  rewrite compare_Sequence, (for_indices_seq _ (Leaf SNull)).
  unfold own_record, length_record, py_ne. simpl py_eq.
  rewrite Hlen. reflexivity.
Qed.

Lemma compare_length_mismatch_witness :
  compare "p" (Sequence [int 1; int 2; int 3]) (Sequence [int 1; int 9])
  = [ Difference "p" (Sequence [int 1; int 2; int 3]) (Sequence [int 1; int 9]);
      LengthMismatch "p";
      Difference "p[1]" (int 2) (int 9) ].
Proof.
  refine (eq_trans
            (proj1 (compare_length_mismatch "p")
                   [int 1; int 2; int 3] [int 1; int 9] _)
            eq_refl).
  simpl. lia.
Defined.

(* ================================================================= *)
(** ** Keys on one side only *)

(** C5: comparing [{a: 1}] with [{b: 1}] prints, after the value
    mismatch of the two mappings, exactly one "missing key in right"
    record, at [path.a], and exactly one "missing key in left" record,
    at [path.b]. *)
Theorem compare_missing_keys path :
  compare path (Mapping [("a", int 1)]) (Mapping [("b", int 1)])
  = [ Difference path (Mapping [("a", int 1)]) (Mapping [("b", int 1)]);
      MissingInRight (path ++ ".a")%string;
      MissingInLeft (path ++ ".b")%string ]
  /\ compare "root" (Mapping [("a", int 1)]) (Mapping [("b", int 1)])
     = [ Difference "root" (Mapping [("a", int 1)]) (Mapping [("b", int 1)]);
         MissingInRight "root.a";
         MissingInLeft "root.b" ].
Proof. split; reflexivity. Qed.

(* ================================================================= *)
(** ** Order of the records *)

(** C6: the records come in a fixed order.  A node's own value mismatch
    is first.  For two mappings it is followed by one block per key of
    the left mapping, in the left mapping's insertion order (the whole
    output of the recursive call for a shared key, or the "missing key
    in right" record), and after that pass by the "missing key in left"
    records for the keys only the right mapping has, in the right
    mapping's order.  For two sequences it is followed by the length
    mismatch, if any, and then by the whole output of the recursive call
    for each index in increasing order. *)
Theorem compare_order path :
  (forall le re,
      distinct (keys le) = true ->
      compare path (Mapping le) (Mapping re)
      = own_record path (Mapping le) (Mapping re)
        ++ flat_map
             (fun k =>
                match lookup k re with
                | Some rv =>
                    match lookup k le with
                    | Some lv => compare (key_path path k) lv rv
                    | None => []
                    end
                | None => [MissingInRight (key_path path k)]
                end) (keys le)
        ++ map (fun k => MissingInLeft (key_path path k))
               (filter (fun k => negb (has_key k le)) (keys re)))
  /\ (forall ls rs,
         compare path (Sequence ls) (Sequence rs)
         = own_record path (Sequence ls) (Sequence rs)
           ++ length_record path ls rs
           ++ flat_map (fun i => compare (index_path path i)
                                         (nth i ls (Leaf SNull))
                                         (nth i rs (Leaf SNull)))
                       (seq 0 (Nat.min (List.length ls) (List.length rs))))
  /\ compare path
       (Mapping [("b", int 1); ("a", Sequence [int 1; int 2]); ("c", int 0)])
       (Mapping [("z", int 0); ("a", Sequence [int 3; int 4]); ("b", int 2)])
     = [ Difference path
           (Mapping [("b", int 1); ("a", Sequence [int 1; int 2]); ("c", int 0)])
           (Mapping [("z", int 0); ("a", Sequence [int 3; int 4]); ("b", int 2)]);
         Difference (key_path path "b") (int 1) (int 2);
         Difference (key_path path "a")
                    (Sequence [int 1; int 2]) (Sequence [int 3; int 4]);
         Difference (index_path (key_path path "a") 0) (int 1) (int 3);
         Difference (index_path (key_path path "a") 1) (int 2) (int 4);
         MissingInRight (key_path path "c");
         MissingInLeft (key_path path "z") ].
Proof.
  split; [|split].
  - intros le re Hd.
    now rewrite compare_Mapping, for_left_keys_lookup, for_right_keys_filter.
  - intros ls rs.
    now rewrite compare_Sequence, (for_indices_seq _ (Leaf SNull)).
  - reflexivity.
Qed.

Lemma compare_order_witness :
  compare "p" (Mapping [("k", int 1); ("m", int 2)]) (Mapping [("m", int 3)])
  = own_record "p" (Mapping [("k", int 1); ("m", int 2)])
                   (Mapping [("m", int 3)])
    ++ flat_map
         (fun k =>
            match lookup k [("m", int 3)] with
            | Some rv =>
                match lookup k [("k", int 1); ("m", int 2)] with
                | Some lv => compare (key_path "p" k) lv rv
                | None => []
                end
            | None => [MissingInRight (key_path "p" k)]
            end) (keys [("k", int 1); ("m", int 2)])
    ++ map (fun k => MissingInLeft (key_path "p" k))
           (filter (fun k => negb (has_key k [("k", int 1); ("m", int 2)]))
                   (keys [("m", int 3)])).
Proof.
  apply (proj1 (compare_order "p")). reflexivity.
Defined.

(* ================================================================= *)
(** ** Termination *)

Lemma fold_max_member {A : Type} (f : A -> nat) x xs :
  In x xs -> f x <= fold_right (fun y m => Nat.max (f y) m) 0 xs.
Proof.
  induction xs as [|y xs IH]; simpl; [contradiction|].
  intros [->|H]; [lia|]. specialize (IH H). lia.
Qed.

Lemma child_depth x v : child x v -> depth x < depth v.
Proof.
  intros [y ys Hin|k y es Hin]; simpl.
  - pose proof (fold_max_member depth _ _ Hin). lia.
  - pose proof (fold_max_member (fun kv => depth (snd kv)) _ _ Hin) as H.
    simpl in H. lia.
Qed.

Lemma for_each_ext {A : Type} (f g : A -> option (list Record)) xs :
  (forall x, In x xs -> f x = g x) -> for_each f xs = for_each g xs.
Proof.
  induction xs as [|x xs IH]; intros H; simpl; [reflexivity|].
  rewrite (H x) by now left.
  rewrite IH by (intros; apply H; now right). reflexivity.
Qed.

Lemma for_each_flat_map {A : Type} (f : A -> option (list Record)) g xs :
  (forall x, In x xs -> f x = Some (g x)) ->
  for_each f xs = Some (flat_map g xs).
Proof.
  induction xs as [|x xs IH]; intros H; simpl; [reflexivity|].
  rewrite (H x) by now left.
  rewrite IH by (intros; apply H; now right). reflexivity.
Qed.

(** One activation calls itself only on a member of [l] paired with a
    member of [r]. *)
Lemma compare_step_local self self' path l r :
  (forall q l' r', child l' l -> child r' r -> self q l' r' = self' q l' r') ->
  compare_step self path l r = compare_step self' path l r.
Proof.
  intros H. destruct l as [a|ls|le], r as [b|rs|re]; try reflexivity.
  - unfold compare_step.
    erewrite for_each_ext; [reflexivity|].
    intros i _. simpl.
    destruct (nth_error ls i) as [x|] eqn:Hx; [|reflexivity].
    destruct (nth_error rs i) as [y|] eqn:Hy; [|reflexivity].
    simpl. apply H; constructor; eapply nth_error_In; eassumption.
  - unfold compare_step.
    erewrite for_each_ext; [reflexivity|].
    intros k _. simpl.
    destruct (has_key k re); [|reflexivity].
    destruct (lookup k le) as [lv|] eqn:Hl; [|reflexivity].
    destruct (lookup k re) as [rv|] eqn:Hr; [|reflexivity].
    simpl. apply H; econstructor; eapply lookup_In; eassumption.
Qed.

Lemma wf_item x xs : wf (Sequence xs) = true -> In x xs -> wf x = true.
Proof. simpl. rewrite forallb_forall. auto. Qed.

(** With a frame for every level of the shallower argument, and one
    more, the bounded comparator returns what [compare] returns. *)
Lemma compare_within_enough frames :
  forall path l r,
    wf l = true ->
    Nat.min (depth l) (depth r) < frames ->
    compare_within frames path l r = Some (compare path l r).
Proof.
  induction frames as [|n IH]; intros path l r Hwf Hd; [lia|].
  destruct l as [a|ls|le], r as [b|rs|re];
    try (cbn [compare_within compare_step compare];
         now rewrite app_nil_r).
  - cbn [compare_within compare_step].
    rewrite compare_Sequence, (for_indices_seq _ (Leaf SNull)).
    erewrite for_each_flat_map; [reflexivity|].
    intros i Hi. apply in_seq in Hi.
    assert (Hil : i < List.length ls) by lia.
    assert (Hir : i < List.length rs) by lia.
    rewrite (nth_error_nth' ls (Leaf SNull) Hil).
    rewrite (nth_error_nth' rs (Leaf SNull) Hir). simpl.
    pose proof (nth_In ls (Leaf SNull) Hil) as Hinl.
    pose proof (nth_In rs (Leaf SNull) Hir) as Hinr.
    apply IH; [exact (wf_item _ _ Hwf Hinl)|].
    pose proof (child_depth _ _ (child_item _ _ Hinl)).
    pose proof (child_depth _ _ (child_item _ _ Hinr)). lia.
  - assert (Hdk : distinct (keys le) = true).
    { simpl in Hwf. now apply andb_true_iff in Hwf as [Hdk _]. }
    cbn [compare_within compare_step].
    rewrite compare_Mapping, (for_left_keys_lookup _ _ _ _ Hdk).
    erewrite for_each_flat_map; [reflexivity|].
    intros k Hk. simpl. unfold has_key.
    destruct (lookup k re) as [rv|] eqn:Hr; [|reflexivity].
    apply has_key_In in Hk. unfold has_key in Hk.
    destruct (lookup k le) as [lv|] eqn:Hl; [|discriminate]. simpl.
    apply lookup_In in Hl, Hr.
    apply IH; [exact (wf_entry _ _ _ Hwf Hl)|].
    pose proof (child_depth _ _ (child_entry _ _ _ Hl)).
    pose proof (child_depth _ _ (child_entry _ _ _ Hr)). lia.
Qed.

(** C7: [compare] terminates on every pair of finite values.  Each
    activation calls itself only on a member of [l] together with a
    member of [r]; a member is strictly less deep than its container;
    hence a call stack of more frames than the depth of the shallower
    argument always suffices, and the run then returns the records of
    the total function [compare]. *)
Theorem compare_terminates :
  (forall self self' path l r,
      (forall q l' r',
          child l' l -> child r' r -> self q l' r' = self' q l' r') ->
      compare_step self path l r = compare_step self' path l r)
  /\ (forall x v, child x v -> depth x < depth v)
  /\ (forall frames path l r,
         wf l = true ->
         Nat.min (depth l) (depth r) < frames ->
         compare_within frames path l r = Some (compare path l r)).
Proof.
  split; [exact compare_step_local|].
  split; [exact child_depth|].
  exact compare_within_enough.
Qed.

Lemma compare_terminates_witness :
  compare_within 2 "root" (Sequence [int 1; Sequence [int 2]])
                          (Sequence [int 1; int 2])
  = Some (compare "root" (Sequence [int 1; Sequence [int 2]])
                         (Sequence [int 1; int 2]))
  /\ depth (int 1) < depth (Sequence [int 1])
  /\ compare_step (fun _ _ _ => None) "root" (int 1) (int 2)
     = compare_step (compare_within 1) "root" (int 1) (int 2).
Proof.
  split; [|split].
  - apply (proj2 (proj2 compare_terminates)); [reflexivity | simpl; lia].
  - apply (proj1 (proj2 compare_terminates)). constructor. now left.
  - apply (proj1 compare_terminates). intros q l' r' H. inversion H.
Defined.

(* ================================================================= *)
(** ** The inputs are only read *)

Section ReadOnly.
Import Store.

Lemma read_only_ret {A : Type} (a : A) : read_only (ret a).
Proof.
  intros w b w' [= <- <-]. split; [reflexivity|].
  exists []. now rewrite app_nil_r.
Qed.

Lemma read_only_lift {A : Type} (o : option A) : read_only (lift o).
Proof.
  intros w b w'. unfold lift. destruct o; [|discriminate].
  intros [= <- <-]. split; [reflexivity|].
  exists []. now rewrite app_nil_r.
Qed.

Lemma read_only_raise {A : Type} : read_only (@raise A).
Proof. intros w b w'. discriminate. Qed.

Lemma read_only_load a : read_only (load a).
Proof. intros w b w'. unfold load. apply read_only_lift. Qed.

Lemma read_only_snapshot a : read_only (snapshot a).
Proof. intros w b w'. unfold snapshot. apply read_only_lift. Qed.

Lemma read_only_print r : read_only (print r).
Proof.
  intros w b w' [= <- <-]. simpl. split; [reflexivity|]. now exists [r].
Qed.

Lemma read_only_bind {A B : Type} (m : M A) (f : A -> M B) :
  read_only m -> (forall a, read_only (f a)) -> read_only (bind m f).
Proof.
  intros Hm Hf w b w'. unfold bind.
  destruct (m w) as [[a w1]|] eqn:E; [|discriminate].
  intros Hfa.
  destruct (Hm _ _ _ E) as [Ho1 [out1 Hs1]].
  destruct (Hf a _ _ _ Hfa) as [Ho2 [out2 Hs2]].
  split; [congruence|].
  exists (out1 ++ out2). now rewrite Hs2, Hs1, app_assoc.
Qed.

Lemma read_only_for_each {A : Type} (body : A -> M unit) xs :
  (forall x, read_only (body x)) -> read_only (for_each body xs).
Proof.
  intros H. induction xs as [|x xs IH]; simpl.
  - apply read_only_ret.
  - apply read_only_bind; auto.
Qed.

Lemma read_only_if {A : Type} (b : bool) (m1 m2 : M A) :
  read_only m1 -> read_only m2 -> read_only (if b then m1 else m2).
Proof. now destruct b. Qed.

Lemma read_only_compare frames :
  forall path l r, read_only (Store.compare frames path l r).
Proof.
  induction frames as [|n IH]; intros path l r; simpl.
  - apply read_only_raise.
  - apply read_only_bind; [apply read_only_snapshot | intros lv].
    apply read_only_bind; [apply read_only_snapshot | intros rv].
    apply read_only_bind;
      [apply read_only_if; [apply read_only_print | apply read_only_ret]|].
    intros _.
    apply read_only_bind; [apply read_only_load | intros lo].
    apply read_only_bind; [apply read_only_load | intros ro].
    destruct lo as [a|ls|le], ro as [b|rs|re]; try apply read_only_ret.
    + apply read_only_bind;
        [apply read_only_if; [apply read_only_ret | apply read_only_print]|].
      intros _. apply read_only_for_each. intros i.
      apply read_only_bind; [apply read_only_lift | intros x].
      apply read_only_bind; [apply read_only_lift | intros y].
      apply IH.
    + apply read_only_bind.
      * apply read_only_for_each. intros k.
        apply read_only_if; [|apply read_only_print].
        apply read_only_bind; [apply read_only_lift | intros x].
        apply read_only_bind; [apply read_only_lift | intros y].
        apply IH.
      * intros _. apply read_only_for_each. intros k.
        apply read_only_if; [apply read_only_ret | apply read_only_print].
Qed.
End ReadOnly.

(* ================================================================= *)
(** ** The store comparator prints what [compare] returns *)

Section StoreRun.
Import Store.

Lemma all_some_map_length {A B : Type} (f : A -> option B) xs ys :
  all_some (map f xs) = Some ys -> List.length ys = List.length xs.
Proof.
  revert ys. induction xs as [|x xs IH]; intros ys; simpl.
  - now intros [= <-].
  - destruct (f x); [|discriminate].
    destruct (all_some (map f xs)) as [zs|]; [|discriminate].
    intros [= <-]. simpl. now rewrite (IH zs).
Qed.

Lemma all_some_map_nth {A B : Type} (f : A -> option B) xs ys i x :
  all_some (map f xs) = Some ys ->
  nth_error xs i = Some x ->
  exists y, nth_error ys i = Some y /\ f x = Some y.
Proof.
  revert ys i. induction xs as [|a xs IH]; intros ys i; simpl.
  - destruct i; discriminate.
  - destruct (f a) as [b|] eqn:Ea; [|discriminate].
    destruct (all_some (map f xs)) as [zs|]; [|discriminate].
    intros [= <-]. destruct i as [|i]; simpl.
    + intros [= <-]. now exists b.
    + now apply IH.
Qed.

Lemma all_some_map_weaken {A B : Type} (f g : A -> option B) xs ys :
  (forall x y, In x xs -> f x = Some y -> g x = Some y) ->
  all_some (map f xs) = Some ys -> all_some (map g xs) = Some ys.
Proof.
  revert ys. induction xs as [|a xs IH]; intros ys H; simpl; [auto|].
  destruct (f a) as [b|] eqn:Ea; [|discriminate].
  rewrite (H a b (or_introl eq_refl) Ea).
  destruct (all_some (map f xs)) as [zs|]; [|discriminate].
  intros [= <-].
  now rewrite (IH zs (fun x y Hx => H x y (or_intror Hx)) eq_refl).
Qed.

Lemma value_at_S n h a :
  value_at (S n) h a
  = match nth_error h a with
    | None => None
    | Some (OLeaf s) => Some (Leaf s)
    | Some (OList items) =>
        option_map Sequence (all_some (map (value_at n h) items))
    | Some (ODict entries) =>
        option_map Mapping (all_some (map (entry_at n h) entries))
    end.
Proof. reflexivity. Qed.

Lemma value_at_mono n h :
  forall a v, value_at n h a = Some v -> value_at (S n) h a = Some v.
Proof.
  induction n as [|n IH]; intros a v; [discriminate|].
  rewrite (value_at_S (S n)), (value_at_S n).
  destruct (nth_error h a) as [[s|items|entries]|]; auto.
  - destruct (all_some (map (value_at n h) items)) as [ls|] eqn:E;
      [|discriminate].
    intros [= <-].
    now rewrite (all_some_map_weaken _ (value_at (S n) h) _ _
                   (fun x y _ => IH x y) E).
  - destruct (all_some (map (entry_at n h) entries)) as [es|] eqn:E;
      [|discriminate].
    intros [= <-].
    rewrite (all_some_map_weaken (entry_at n h) (entry_at (S n) h) entries es);
      [reflexivity | | exact E].
    intros [k x] y _ Hy. unfold entry_at in *. cbn [fst snd] in *.
    destruct (value_at n h x) as [u|] eqn:Ex; [|discriminate].
    now rewrite (IH _ _ Ex).
Qed.

Lemma entries_lookup n h es_a es k :
  all_some (map (entry_at n h) es_a) = Some es ->
  lookup k es
  = match lookup k es_a with
    | Some a => value_at n h a
    | None => None
    end
  /\ (forall a, lookup k es_a = Some a -> value_at n h a <> None).
Proof.
  revert es. induction es_a as [|[k' a'] es_a IH]; intros es; simpl.
  - intros [= <-]. split; [reflexivity | discriminate].
  - unfold entry_at at 1. simpl.
    destruct (value_at n h a') as [v'|] eqn:Ev; [|discriminate]. simpl.
    destruct (all_some (map (entry_at n h) es_a)) as [zs|]; [|discriminate].
    intros [= <-]. simpl.
    destruct (k =? k')%string.
    + split; [now rewrite Ev|]. intros a [= <-]. congruence.
    + now apply IH.
Qed.

Lemma entries_keys n h es_a es :
  all_some (map (entry_at n h) es_a) = Some es -> keys es = keys es_a.
Proof.
  revert es. induction es_a as [|[k' a'] es_a IH]; intros es; simpl.
  - now intros [= <-].
  - unfold entry_at at 1. simpl.
    destruct (value_at n h a') as [v'|]; [|discriminate]. simpl.
    destruct (all_some (map (entry_at n h) es_a)) as [zs|]; [|discriminate].
    intros [= <-]. simpl. f_equal. now apply IH.
Qed.

Lemma entries_has_key n h es_a es k :
  all_some (map (entry_at n h) es_a) = Some es ->
  has_key k es = has_key k es_a.
Proof.
  intros H. apply eq_true_iff_eq.
  now rewrite !has_key_In, (entries_keys _ _ _ _ H).
Qed.

Lemma after_nil w : after w [] = w.
Proof. destruct w. unfold after. simpl. now rewrite app_nil_r. Qed.

Lemma after_after w a b : after (after w a) b = after w (a ++ b).
Proof. unfold after. simpl. now rewrite app_assoc. Qed.

Lemma bind_say {B : Type} out (k : M B) w :
  bind (say out) (fun _ => k) w = k (after w out).
Proof. reflexivity. Qed.

Lemma bind_snapshot {B : Type} a v (k : Value -> M B) w :
  value_at (List.length (objects w)) (objects w) a = Some v ->
  bind (snapshot a) k w = k v w.
Proof. intros H. unfold bind, snapshot. now rewrite H. Qed.

Lemma bind_load {B : Type} a o (k : Obj -> M B) w :
  nth_error (objects w) a = Some o -> bind (load a) k w = k o w.
Proof. intros H. unfold bind, load. now rewrite H. Qed.

Lemma bind_lift {B C : Type} (o : option C) c (k : C -> M B) w :
  o = Some c -> bind (lift o) k w = k c w.
Proof. now intros ->. Qed.

Lemma own_record_say {B : Type} path l r (k : M B) w :
  bind (if py_ne l r then print (Difference path l r) else ret tt)
       (fun _ => k) w
  = k (after w (own_record path l r)).
Proof.
  unfold own_record. destruct (py_ne l r); [reflexivity|].
  now rewrite after_nil.
Qed.

Lemma length_record_say {B : Type} path (ls rs : list addr) xs ys
      (k : M B) w :
  List.length xs = List.length ls ->
  List.length ys = List.length rs ->
  bind (if (List.length ls =? List.length rs)%nat then ret tt
        else print (LengthMismatch path)) (fun _ => k) w
  = k (after w (length_record path xs ys)).
Proof.
  intros Hx Hy. unfold length_record. rewrite Hx, Hy.
  destruct (List.length ls =? List.length rs)%nat; [|reflexivity].
  now rewrite after_nil.
Qed.

Lemma for_each_say {A : Type} (body : A -> M unit) out xs :
  forall w,
    (forall x w', In x xs -> objects w' = objects w ->
                  body x w' = say (out x) w') ->
    Store.for_each body xs w = say (flat_map out xs) w.
Proof.
  induction xs as [|x xs IH]; intros w H; simpl.
  - unfold ret, say. now rewrite after_nil.
  - unfold bind. rewrite (H x w (or_introl eq_refl) eq_refl).
    unfold say at 1. rewrite IH.
    + unfold say. now rewrite after_after.
    + intros y w' Hy Hw'. apply H; [now right | exact Hw'].
Qed.
End StoreRun.

Lemma ret_say w : Store.ret tt w = Store.say [] w.
Proof. unfold Store.ret, Store.say. now rewrite after_nil. Qed.

Lemma value_at_Sequence n h items l :
  option_map Sequence (Store.all_some (map (Store.value_at n h) items)) = Some l ->
  exists ls, Store.all_some (map (Store.value_at n h) items) = Some ls
             /\ l = Sequence ls.
Proof.
  destruct (Store.all_some _) as [ls|]; [|discriminate].
  intros [= <-]. now exists ls.
Qed.

Lemma value_at_Mapping n h entries l :
  option_map Mapping (Store.all_some (map (Store.entry_at n h) entries)) = Some l ->
  exists es, Store.all_some (map (Store.entry_at n h) entries) = Some es
             /\ l = Mapping es.
Proof.
  destruct (Store.all_some _) as [es|]; [|discriminate].
  intros [= <-]. now exists es.
Qed.

(** On a store where [l] and [r] reach the values [lv] and [rv], and with
    frames enough for the shallower of them, the store comparator
    returns normally, leaves the objects alone and prints exactly the
    records of [compare]. *)
Lemma store_compare_run frames :
  forall path l r lv rv w,
    Store.value_at (List.length (Store.objects w)) (Store.objects w) l = Some lv ->
    Store.value_at (List.length (Store.objects w)) (Store.objects w) r = Some rv ->
    wf lv = true ->
    Nat.min (depth lv) (depth rv) < frames ->
    Store.compare frames path l r w = Store.say (compare path lv rv) w.
Proof.
  induction frames as [|n IH]; intros path l r lv rv w Hl Hr Hwf Hd; [lia|].
  cbn [Store.compare].
  rewrite (bind_snapshot _ _ _ _ Hl), (bind_snapshot _ _ _ _ Hr).
  rewrite own_record_say.
  set (h := Store.objects w) in *.
  destruct (List.length h) as [|N] eqn:EN; [discriminate|].
  rewrite value_at_S in Hl, Hr.
  destruct (nth_error h l) as [lo|] eqn:Elo; [|discriminate].
  destruct (nth_error h r) as [ro|] eqn:Ero; [|discriminate].
  rewrite (bind_load l lo) by exact Elo.
  rewrite (bind_load r ro) by exact Ero.
  assert (Hmember : forall q x y xv yv w',
             Store.objects w' = h ->
             Store.value_at N h x = Some xv ->
             Store.value_at N h y = Some yv ->
             child xv lv -> child yv rv ->
             Store.compare n q x y w' = Store.say (compare q xv yv) w').
  { intros q x y xv yv w' Hw' Hx Hy Hcx Hcy.
    apply IH.
    - rewrite Hw', EN. now apply value_at_mono.
    - rewrite Hw', EN. now apply value_at_mono.
    - destruct Hcx as [x0 xs Hin|k x0 es Hin].
      + exact (wf_item _ _ Hwf Hin).
      + exact (wf_entry _ _ _ Hwf Hin).
    - apply child_depth in Hcx, Hcy. lia. }
  destruct lo as [a|lis|les].
  - injection Hl as <-. rewrite compare_Leaf_l.
    now destruct ro.
  - apply value_at_Sequence in Hl as [ls [Els ->]].
    destruct ro as [b|ris|res].
    + injection Hr as <-. now rewrite compare_Leaf_r.
    + apply value_at_Sequence in Hr as [rs [Ers ->]].
      pose proof (all_some_map_length _ _ _ Els) as Hlenl.
      pose proof (all_some_map_length _ _ _ Ers) as Hlenr.
      rewrite (length_record_say path lis ris ls rs) by assumption.
      rewrite (for_each_say _
                 (fun i => compare (index_path path i)
                                   (nth i ls (Leaf SNull))
                                   (nth i rs (Leaf SNull)))).
      * rewrite compare_Sequence, (for_indices_seq _ (Leaf SNull)).
        unfold Store.say. rewrite !after_after, Hlenl, Hlenr. reflexivity.
      * intros i w' Hi Hw'. apply in_seq in Hi.
        destruct (nth_error lis i) as [x|] eqn:Ex;
          [|apply nth_error_None in Ex; lia].
        destruct (nth_error ris i) as [y|] eqn:Ey;
          [|apply nth_error_None in Ey; lia].
        destruct (all_some_map_nth _ _ _ _ _ Els Ex) as [xv [Hxv Hx]].
        destruct (all_some_map_nth _ _ _ _ _ Ers Ey) as [yv [Hyv Hy]].
        rewrite (nth_error_nth _ _ (Leaf SNull) Hxv).
        rewrite (nth_error_nth _ _ (Leaf SNull) Hyv).
        cbn [Store.bind Store.lift].
        apply Hmember; try assumption.
        -- constructor. eapply nth_error_In; eassumption.
        -- constructor. eapply nth_error_In; eassumption.
    + apply value_at_Mapping in Hr as [rs [Ers ->]].
      now rewrite compare_Sequence_Mapping.
  - apply value_at_Mapping in Hl as [le [Ele ->]].
    destruct ro as [b|ris|res].
    + injection Hr as <-. now rewrite compare_Leaf_r.
    + apply value_at_Sequence in Hr as [rs [Ers ->]].
      now rewrite compare_Mapping_Sequence.
    + apply value_at_Mapping in Hr as [re [Ere ->]].
      assert (Hdk : distinct (keys le) = true).
      { simpl in Hwf. now apply andb_true_iff in Hwf as [Hdk _]. }
      unfold Store.bind at 1.
      rewrite (for_each_say _
                 (fun k =>
                    match lookup k re with
                    | Some yv =>
                        match lookup k le with
                        | Some xv => compare (key_path path k) xv yv
                        | None => []
                        end
                    | None => [MissingInRight (key_path path k)]
                    end)).
      * unfold Store.say at 1.
        rewrite (for_each_say _
                   (fun k => if has_key k le then []
                             else [MissingInLeft (key_path path k)])).
        -- rewrite compare_Mapping, (for_left_keys_lookup _ _ _ _ Hdk).
           unfold for_right_keys, Store.say.
           rewrite !after_after.
           rewrite (entries_keys _ _ _ _ Ele), (entries_keys _ _ _ _ Ere).
           reflexivity.
        -- intros k w' _ _.
           rewrite <- (entries_has_key _ _ _ _ k Ele).
           destruct (has_key k le); [apply ret_say | reflexivity].
      * intros k w' Hk Hw'.
        destruct (entries_lookup _ _ _ _ k Ele) as [Hkl Hkl'].
        destruct (entries_lookup _ _ _ _ k Ere) as [Hkr Hkr'].
        unfold has_key.
        destruct (lookup k res) as [y|] eqn:Ey.
        -- apply has_key_In in Hk. unfold has_key in Hk.
           destruct (lookup k les) as [x|] eqn:Ex; [|discriminate].
           cbn [Store.bind Store.lift].
           destruct (Store.value_at N h x) as [xv|] eqn:Exv;
             [|now destruct (Hkl' x eq_refl)].
           destruct (Store.value_at N h y) as [yv|] eqn:Eyv;
             [|now destruct (Hkr' y eq_refl)].
           rewrite Hkl, Hkr.
           apply Hmember; try assumption.
           ++ econstructor. apply lookup_In. exact Hkl.
           ++ econstructor. apply lookup_In. exact Hkr.
        -- rewrite Hkr. reflexivity.
Qed.

(* ================================================================= *)
(** ** Non-mutation *)

(** C8: [compare] never mutates its inputs.  On the object store, every
    run that returns leaves every object as it was, so every reference
    (the two arguments and all their members) reaches the same value
    afterwards as before, and the only change to the world is that lines
    were appended to the output; and, on a store where the arguments
    reach finite values, the run does return (given frames enough for
    the shallower argument), having printed the records of [compare]. *)
Theorem compare_never_mutates :
  (forall frames path l r w w' u,
      Store.compare frames path l r w = Some (u, w') ->
      Store.objects w' = Store.objects w
      /\ (forall a,
             Store.value_at (List.length (Store.objects w'))
                            (Store.objects w') a
             = Store.value_at (List.length (Store.objects w))
                              (Store.objects w) a)
      /\ exists out, Store.stdout w' = Store.stdout w ++ out)
  /\ (forall frames path l r lv rv w,
         Store.value_at (List.length (Store.objects w)) (Store.objects w) l
         = Some lv ->
         Store.value_at (List.length (Store.objects w)) (Store.objects w) r
         = Some rv ->
         wf lv = true ->
         Nat.min (depth lv) (depth rv) < frames ->
         Store.compare frames path l r w
         = Some (tt, Store.mkWorld (Store.objects w)
                                   (Store.stdout w ++ compare path lv rv))).
Proof.
  split.
  - intros frames path l r w w' u H.
    destruct (read_only_compare frames path l r w u w' H) as [Ho Hs].
    split; [exact Ho|]. split; [|exact Hs].
    intros a. now rewrite Ho.
  - intros frames path l r lv rv w Hl Hr Hwf Hd.
    now rewrite (store_compare_run frames path l r lv rv w Hl Hr Hwf Hd).
Qed.

Lemma compare_never_mutates_witness :
  Store.compare 2 "root" 2 3 small_world
  = Some (tt, Store.mkWorld
                (Store.objects small_world)
                (Store.stdout small_world
                 ++ compare "root" (Sequence [int 1; int 2])
                                   (Sequence [int 1; int 1; int 2])))
  /\ Store.objects
       (Store.mkWorld
          (Store.objects small_world)
          (Store.stdout small_world
           ++ compare "root" (Sequence [int 1; int 2])
                             (Sequence [int 1; int 1; int 2])))
     = Store.objects small_world.
Proof.
  assert (H : Store.compare 2 "root" 2 3 small_world
              = Some (tt, Store.mkWorld
                            (Store.objects small_world)
                            (Store.stdout small_world
                             ++ compare "root" (Sequence [int 1; int 2])
                                  (Sequence [int 1; int 1; int 2])))).
  { apply (proj2 compare_never_mutates); [reflexivity | reflexivity
                                          | reflexivity | simpl; lia]. }
  split; [exact H|].
  exact (proj1 (proj1 compare_never_mutates _ _ _ _ _ _ _ H)).
Defined.

(* ================================================================= *)
(** ** The script's two documents *)

(** As written, neither literal decodes: each lacks the closing brace of
    its outermost object, so the script stops at line 7 with a
    [JSONDecodeError] and never reaches [compare]. *)
Lemma literals_do_not_decode :
  Json.loads Sample.left_str = Json.JSONDecodeError
  /\ Json.loads Sample.right_str = Json.JSONDecodeError
  /\ script = Json.JSONDecodeError.
Proof. repeat split; vm_compute; reflexivity. Qed.

(** With that brace supplied they decode to [Sample.left] and
    [Sample.right], the documents the rest of this section is about. *)
Lemma literals_completed :
  Json.loads (Sample.left_str ++ "}") = Json.Done Sample.left EmptyString
  /\ Json.loads (Sample.right_str ++ "}") = Json.Done Sample.right EmptyString.
Proof. split; vm_compute; reflexivity. Qed.

Lemma sample_documents_wf :
  wf Sample.left = true /\ wf Sample.right = true
  /\ nan_free Sample.left = true /\ nan_free Sample.right = true.
Proof. repeat split; vm_compute; reflexivity. Qed.

(** C1, as stated, fails: on the two documents [compare] prints seven
    records, not two. *)
Lemma sample_not_two_records :
  List.length (compare "root" Sample.left Sample.right) = 7
  /\ ~ (exists a b, compare "root" Sample.left Sample.right = [a; b]).
Proof.
  split; [vm_compute; reflexivity|].
  intros [a [b H]]. apply (f_equal (@List.length Record)) in H.
  vm_compute in H. discriminate.
Qed.

(** C1 (amended): on the two sample documents, which differ only in the
    ["type"] under [ValidationErrorBodySchema.properties.fields]
    (["array"] on the left, ["string"] on the right), [compare] prints
    exactly seven records, all of them value mismatches: one at every
    node on the way from [root] down to the [fields] node and one at
    [fields.type]; there is no missing-key and no length-mismatch
    record. *)
Theorem compare_sample_documents :
  compare "root" Sample.left Sample.right
  = [ Difference "root" Sample.left Sample.right;
      Difference "root.components"
        (at_keys ["components"] Sample.left)
        (at_keys ["components"] Sample.right);
      Difference "root.components.schemas"
        (at_keys ["components"; "schemas"] Sample.left)
        (at_keys ["components"; "schemas"] Sample.right);
      Difference "root.components.schemas.ValidationErrorBodySchema"
        (at_keys ["components"; "schemas"; "ValidationErrorBodySchema"]
                 Sample.left)
        (at_keys ["components"; "schemas"; "ValidationErrorBodySchema"]
                 Sample.right);
      Difference
        "root.components.schemas.ValidationErrorBodySchema.properties"
        (at_keys ["components"; "schemas"; "ValidationErrorBodySchema";
                  "properties"] Sample.left)
        (at_keys ["components"; "schemas"; "ValidationErrorBodySchema";
                  "properties"] Sample.right);
      Difference
        "root.components.schemas.ValidationErrorBodySchema.properties.fields"
        (Mapping
           [ ("items",
              Mapping [(EmptyString,
                        str "#/components/schemas/FieldErrorSchema")]);
             ("type", str "array") ])
        (Mapping
           [ ("items",
              Mapping [(EmptyString,
                        str "#/components/schemas/FieldErrorSchema")]);
             ("type", str "string") ]);
      Difference
        "root.components.schemas.ValidationErrorBodySchema.properties.fields.type"
        (str "array") (str "string") ]
  /\ forallb is_difference (compare "root" Sample.left Sample.right) = true.
Proof. split; vm_compute; reflexivity. Qed.

(* ================================================================= *)
(** * Further properties of [compare] *)

(* ================================================================= *)
(** ** The path is only a prefix *)

Lemma key_path_append p q k :
  key_path (p ++ q) k = (p ++ key_path q k)%string.
Proof. unfold key_path. apply append_assoc. Qed.

Lemma index_path_append p q i :
  index_path (p ++ q) i = (p ++ index_path q i)%string.
Proof. unfold index_path. apply append_assoc. Qed.

Lemma own_record_append p q l r :
  own_record (p ++ q) l r = map (under p) (own_record q l r).
Proof. unfold own_record. now destruct (py_ne l r). Qed.

Lemma length_record_append p q ls rs :
  length_record (p ++ q) ls rs = map (under p) (length_record q ls rs).
Proof.
  unfold length_record. now destruct (List.length ls =? List.length rs)%nat.
Qed.

Lemma for_right_keys_append p q le re :
  for_right_keys (p ++ q) le re = map (under p) (for_right_keys q le re).
Proof.
  unfold for_right_keys. induction (keys re) as [|k ks IH]; [reflexivity|].
  simpl. rewrite map_app, IH. destruct (has_key k le); [reflexivity|].
  simpl. now rewrite key_path_append.
Qed.

Lemma compare_append l :
  forall p q r, compare (p ++ q) l r = map (under p) (compare q l r).
Proof.
  induction l as [a|xs IH|es IH] using Value_ind; intros p q r.
  - now rewrite !compare_Leaf_l, own_record_append.
  - destruct r as [b|ys|re].
    + now rewrite !compare_Leaf_r, own_record_append.
    + rewrite !compare_Sequence, !map_app.
      rewrite own_record_append, length_record_append. do 2 f_equal.
      generalize 0 as i. revert ys.
      induction IH as [|x xs Hx _ IHxs]; intros ys i; [reflexivity|].
      destruct ys as [|y ys]; [reflexivity|].
      simpl. now rewrite map_app, index_path_append, Hx, IHxs.
    + now rewrite !compare_Sequence_Mapping, own_record_append.
  - destruct r as [b|ys|re].
    + now rewrite !compare_Leaf_r, own_record_append.
    + now rewrite !compare_Mapping_Sequence, own_record_append.
    + rewrite !compare_Mapping, !map_app.
      rewrite own_record_append, for_right_keys_append. do 2 f_equal.
      induction IH as [|[k v] es Hv _ IHes]; [reflexivity|].
      simpl in *. rewrite map_app, IHes. f_equal.
      destruct (lookup k re) as [rv|].
      * now rewrite key_path_append, Hv.
      * simpl. now rewrite key_path_append.
Qed.

(** X1: the path argument is only ever a prefix.  [compare(p + q, l, r)]
    prints the records of [compare(q, l, r)] with [p] put in front of
    every path, and every path that [compare(p, l, r)] prints starts
    with [p]. *)
Theorem compare_path_is_prefix p l r :
  (forall q, compare (p ++ q) l r = map (under p) (compare q l r))
  /\ Forall (fun rec => exists suffix, record_path rec = (p ++ suffix)%string)
            (compare p l r).
Proof.
  split; [intros q; apply compare_append|].
  assert (H : compare p l r = map (under p) (compare EmptyString l r)).
  { now rewrite <- compare_append, append_empty_r. }
  rewrite H. apply Forall_forall. intros rec Hin.
  apply in_map_iff in Hin as [rec0 [<- _]].
  exists (record_path rec0). now destruct rec0.
Qed.

(* ================================================================= *)
(** ** Which records are printed *)

Lemma in_for_left_keys body path le re rec :
  In rec (for_left_keys body path le re)
  <-> exists kv,
      In kv le
      /\ match lookup (fst kv) re with
         | Some rv => In rec (body (fst kv) (snd kv) rv)
         | None => rec = MissingInRight (key_path path (fst kv))
         end.
Proof.
  induction le as [|a le IH]; simpl.
  - split; [contradiction | intros [kv [[] _]]].
  - rewrite in_app_iff, IH. split.
    + intros [H|[kv [Hin H]]].
      * exists a. split; [now left|].
        destruct (lookup (fst a) re); [assumption|].
        destruct H as [H|[]]. now symmetry.
      * exists kv. split; [now right | assumption].
    + intros [kv [[<-|Hin] H]].
      * left. destruct (lookup (fst a) re); [assumption|]. now left.
      * right. now exists kv.
Qed.

Lemma in_for_indices body i ls rs rec :
  In rec (for_indices body i ls rs)
  <-> exists j x y,
      nth_error ls j = Some x /\ nth_error rs j = Some y
      /\ In rec (body (i + j) x y).
Proof.
  revert i rs. induction ls as [|a ls IH]; intros i rs; simpl.
  - split; [contradiction|]. intros [[|j] [x [y [H _]]]]; discriminate.
  - destruct rs as [|b rs]; simpl.
    + split; [contradiction|].
      intros [[|j] [x [y [_ [H _]]]]]; discriminate.
    + rewrite in_app_iff, IH. split.
      * intros [H|[j [x [y [Hx [Hy H]]]]]].
        -- exists 0, a, b. now rewrite Nat.add_0_r.
        -- exists (S j), x, y. now rewrite Nat.add_succ_r.
      * intros [[|j] [x [y [Hx [Hy H]]]]]; simpl in Hx, Hy.
        -- injection Hx as <-. injection Hy as <-.
           left. now rewrite Nat.add_0_r in H.
        -- right. exists j, x, y. now rewrite Nat.add_succ_r in H.
Qed.

Lemma in_for_right_keys path (le re : list (string * Value)) rec :
  In rec (for_right_keys path le re)
  <-> exists k,
      In k (keys re) /\ ~ In k (keys le)
      /\ rec = MissingInLeft (key_path path k).
Proof.
  unfold for_right_keys. rewrite in_flat_map. split.
  - intros [k [Hk H]]. exists k. split; [assumption|].
    destruct (has_key k le) eqn:E; [contradiction|].
    apply has_key_false in E. destruct H as [H|[]]. now split.
  - intros [k [Hk [Hn ->]]]. exists k. split; [assumption|].
    apply has_key_false in Hn. rewrite Hn. now left.
Qed.

Lemma in_own_record path l r rec :
  In rec (own_record path l r)
  <-> py_ne l r = true /\ rec = Difference path l r.
Proof.
  unfold own_record. destruct (py_ne l r); simpl.
  - split; [intros [H|[]]; now split | intros [_ ->]; now left].
  - split; [contradiction | intros [H _]; discriminate].
Qed.

Lemma in_length_record path ls rs rec :
  In rec (length_record path ls rs)
  <-> List.length ls <> List.length rs /\ rec = LengthMismatch path.
Proof.
  unfold length_record.
  destruct (Nat.eqb_spec (List.length ls) (List.length rs)); simpl.
  - split; [contradiction | intros [H _]; contradiction].
  - split; [intros [H|[]]; now split | intros [_ ->]; now left].
Qed.

Lemma in_left_only path (le re : list (string * Value)) rec :
  In rec (for_left_keys (fun _ _ _ => []) path le re)
  <-> exists k,
      In k (keys le) /\ ~ In k (keys re)
      /\ rec = MissingInRight (key_path path k).
Proof.
  rewrite in_for_left_keys. split.
  - intros [[k v] [Hin H]]. simpl in H.
    destruct (lookup k re) eqn:E; [contradiction|].
    exists k. split; [exact (in_map fst _ _ Hin)|].
    split; [|assumption].
    apply has_key_false. now apply lookup_None.
  - intros [k [Hk [Hn ->]]].
    apply in_map_iff in Hk as [[k' v] [<- Hin]].
    exists (k', v). split; [assumption|]. simpl in *.
    apply has_key_false, lookup_None in Hn. now rewrite Hn.
Qed.

(** What one activation prints is part of what the call prints. *)
Lemma node_records_incl path l r rec :
  In rec (node_records path l r) -> In rec (compare path l r).
Proof.
  unfold node_records.
  destruct l as [a|ls|le], r as [b|rs|re]; cbn [compare];
    rewrite !in_app_iff; try tauto.
  intros [H|[H|H]]; [tauto | | tauto].
  right. left. apply in_for_left_keys.
  apply in_for_left_keys in H as [kv [Hin H]].
  exists kv. split; [assumption|].
  now destruct (lookup (fst kv) re).
Qed.

Lemma path_of_cons path s steps :
  path_of path (s :: steps) = path_of (step_path path s) steps.
Proof. reflexivity. Qed.

(** Every record is printed by the activation at some position that the
    two values share. *)
Lemma in_compare_position l :
  forall path r rec,
    wf l = true ->
    In rec (compare path l r) ->
    exists steps a b,
      descend steps l = Some a /\ descend steps r = Some b
      /\ In rec (node_records (path_of path steps) a b).
Proof.
  induction l as [a|xs IH|es IH] using Value_ind; intros path r rec Hwf Hin.
  - exists [], (Leaf a), r. repeat split.
    rewrite compare_Leaf_l in Hin. unfold node_records.
    rewrite in_app_iff. now left.
  - destruct r as [b|ys|re];
      try (exists [], (Sequence xs); eexists; repeat split;
           cbn [compare] in Hin; exact Hin).
    rewrite compare_Sequence, !in_app_iff in Hin.
    destruct Hin as [H|[H|H]];
      try (exists [], (Sequence xs), (Sequence ys); repeat split;
           unfold node_records; rewrite in_app_iff; tauto).
    apply in_for_indices in H as [j [x [y [Hx [Hy H]]]]].
    rewrite Forall_forall in IH.
    pose proof (nth_error_In _ _ Hx) as Hinx.
    destruct (IH x Hinx _ _ _ (wf_item _ _ Hwf Hinx) H)
      as [steps [a [b [Ha [Hb Hrec]]]]].
    exists (Index j :: steps), a, b. simpl descend.
    rewrite Hx, Hy. now repeat split.
  - destruct r as [b|ys|re];
      try (exists [], (Mapping es); eexists; repeat split;
           cbn [compare] in Hin; exact Hin).
    rewrite compare_Mapping, !in_app_iff in Hin.
    assert (Hhere : In rec (node_records path (Mapping es) (Mapping re)) ->
                    exists steps a b,
                      descend steps (Mapping es) = Some a
                      /\ descend steps (Mapping re) = Some b
                      /\ In rec (node_records (path_of path steps) a b)).
    { intros H. now exists [], (Mapping es), (Mapping re). }
    destruct Hin as [H|[H|H]];
      try (apply Hhere; unfold node_records; rewrite !in_app_iff; tauto).
    apply in_for_left_keys in H as [[k v] [Hkv H]]. simpl in H.
    destruct (lookup k re) as [rv|] eqn:Hr.
    + rewrite Forall_forall in IH.
      destruct (IH _ Hkv _ _ _ (wf_entry _ _ _ Hwf Hkv) H)
        as [steps [a [b [Ha [Hb Hrec]]]]].
      exists (Key k :: steps), a, b. simpl descend.
      assert (Hd : distinct (keys es) = true).
      { simpl in Hwf. now apply andb_true_iff in Hwf as [Hd _]. }
      rewrite (lookup_distinct k v es Hd Hkv), Hr. now repeat split.
    + apply Hhere. unfold node_records. rewrite !in_app_iff.
      right. left. apply in_for_left_keys. exists (k, v).
      split; [assumption|]. simpl. now rewrite Hr.
Qed.

(** And every activation at a shared position prints its records. *)
Lemma position_in_compare steps :
  forall path l r a b rec,
    descend steps l = Some a ->
    descend steps r = Some b ->
    In rec (node_records (path_of path steps) a b) ->
    In rec (compare path l r).
Proof.
  induction steps as [|s steps IH]; intros path l r a b rec Ha Hb Hrec.
  - injection Ha as <-. injection Hb as <-. now apply node_records_incl.
  - simpl in Ha, Hb.
    destruct (member s l) as [x|] eqn:Hx; [|discriminate].
    destruct (member s r) as [y|] eqn:Hy; [|discriminate].
    rewrite path_of_cons in Hrec.
    pose proof (IH _ _ _ _ _ _ Ha Hb Hrec) as Hsub.
    destruct s as [k|i], l as [la|ls|le]; try discriminate;
      destruct r as [rb|rs|re]; try discriminate; simpl in Hx, Hy.
    + rewrite compare_Mapping, !in_app_iff. right. left.
      apply in_for_left_keys. exists (k, x).
      split; [now apply lookup_In|]. simpl. now rewrite Hy.
    + rewrite compare_Sequence, !in_app_iff. right. right.
      apply in_for_indices. now exists i, x, y.
Qed.

Lemma in_compare_iff path l r rec :
  wf l = true ->
  (In rec (compare path l r)
   <-> exists steps a b,
       descend steps l = Some a /\ descend steps r = Some b
       /\ In rec (node_records (path_of path steps) a b)).
Proof.
  intros Hwf. split; [now apply in_compare_position|].
  intros [steps [a [b [Ha [Hb H]]]]]. eapply position_in_compare; eassumption.
Qed.

Lemma in_node_Difference path l r q a b :
  In (Difference q a b) (node_records path l r)
  <-> py_ne l r = true /\ q = path /\ a = l /\ b = r.
Proof.
  unfold node_records. rewrite in_app_iff, in_own_record. split.
  - intros [[Hne [= -> -> ->]]|H]; [now repeat split|].
    exfalso. destruct l as [x|ls|le], r as [y|rs|re]; try contradiction.
    + apply in_length_record in H as [_ H]. discriminate.
    + apply in_app_iff in H as [H|H].
      * apply in_left_only in H as [k [_ [_ H]]]. discriminate.
      * apply in_for_right_keys in H as [k [_ [_ H]]]. discriminate.
  - intros [Hne [-> [-> ->]]]. now left.
Qed.

Lemma in_node_MissingInRight path l r q :
  In (MissingInRight q) (node_records path l r)
  <-> exists le re k,
      l = Mapping le /\ r = Mapping re
      /\ In k (keys le) /\ ~ In k (keys re) /\ q = key_path path k.
Proof.
  unfold node_records. rewrite in_app_iff, in_own_record. split.
  - intros [[_ H]|H]; [discriminate|].
    destruct l as [x|ls|le], r as [y|rs|re]; try contradiction.
    + apply in_length_record in H as [_ H]. discriminate.
    + apply in_app_iff in H as [H|H].
      * apply in_left_only in H as [k [Hk [Hn [= ->]]]].
        now exists le, re, k.
      * apply in_for_right_keys in H as [k [_ [_ H]]]. discriminate.
  - intros [le [re [k [-> [-> [Hk [Hn ->]]]]]]]. right.
    apply in_app_iff. left. apply in_left_only. now exists k.
Qed.

Lemma in_node_MissingInLeft path l r q :
  In (MissingInLeft q) (node_records path l r)
  <-> exists le re k,
      l = Mapping le /\ r = Mapping re
      /\ In k (keys re) /\ ~ In k (keys le) /\ q = key_path path k.
Proof.
  unfold node_records. rewrite in_app_iff, in_own_record. split.
  - intros [[_ H]|H]; [discriminate|].
    destruct l as [x|ls|le], r as [y|rs|re]; try contradiction.
    + apply in_length_record in H as [_ H]. discriminate.
    + apply in_app_iff in H as [H|H].
      * apply in_left_only in H as [k [_ [_ H]]]. discriminate.
      * apply in_for_right_keys in H as [k [Hk [Hn [= ->]]]].
        now exists le, re, k.
  - intros [le [re [k [-> [-> [Hk [Hn ->]]]]]]]. right.
    apply in_app_iff. right. apply in_for_right_keys. now exists k.
Qed.

Lemma in_node_LengthMismatch path l r q :
  In (LengthMismatch q) (node_records path l r)
  <-> exists ls rs,
      l = Sequence ls /\ r = Sequence rs
      /\ List.length ls <> List.length rs /\ q = path.
Proof.
  unfold node_records. rewrite in_app_iff, in_own_record. split.
  - intros [[_ H]|H]; [discriminate|].
    destruct l as [x|ls|le], r as [y|rs|re]; try contradiction.
    + apply in_length_record in H as [Hlen [= ->]]. now exists ls, rs.
    + apply in_app_iff in H as [H|H].
      * apply in_left_only in H as [k [_ [_ H]]]. discriminate.
      * apply in_for_right_keys in H as [k [_ [_ H]]]. discriminate.
  - intros [ls [rs [-> [-> [Hlen ->]]]]]. right.
    apply in_length_record. now split.
Qed.

(** X2: the value-mismatch records are exactly the unequal pairs at
    shared positions.  [compare(path, l, r)] prints
    [Difference at q: a != b] if and only if some chain of subscripts
    (keys and indices) leads from [l] to [a] and from [r] to [b], [a != b]
    holds, and [q] is [path] extended by those subscripts. *)
Theorem difference_records path l r q a b :
  wf l = true ->
  (In (Difference q a b) (compare path l r)
   <-> exists steps,
       descend steps l = Some a /\ descend steps r = Some b
       /\ py_ne a b = true /\ q = path_of path steps).
Proof.
  intros Hwf. rewrite (in_compare_iff _ _ _ _ Hwf). split.
  - intros [steps [a' [b' [Ha [Hb H]]]]].
    apply in_node_Difference in H as [Hne [-> [-> ->]]]. now exists steps.
  - intros [steps [Ha [Hb [Hne ->]]]]. exists steps, a, b.
    repeat split; try assumption. now apply in_node_Difference.
Qed.

Lemma difference_records_witness :
  In (Difference "root.x[1]" (int 2) (int 3))
     (compare "root" (Mapping [("x", Sequence [int 1; int 2])])
                     (Mapping [("x", Sequence [int 1; int 3])])).
Proof.
  apply (proj2 (difference_records "root"
                  (Mapping [("x", Sequence [int 1; int 2])])
                  (Mapping [("x", Sequence [int 1; int 3])])
                  "root.x[1]" (int 2) (int 3) eq_refl)).
  exists [Key "x"; Index 1]. repeat split.
Defined.

(** X3: the missing-key records are exactly the keys that one of two
    dictionaries at a shared position has and the other lacks:
    "missing key in right" at [q] means a key of the left dictionary that
    the right one lacks, "missing key in left" the converse, and [q] is
    the path of that position extended by the key. *)
Theorem missing_key_records path l r q :
  wf l = true ->
  (In (MissingInRight q) (compare path l r)
   <-> exists steps le re k,
       descend steps l = Some (Mapping le)
       /\ descend steps r = Some (Mapping re)
       /\ In k (keys le) /\ ~ In k (keys re)
       /\ q = key_path (path_of path steps) k)
  /\ (In (MissingInLeft q) (compare path l r)
      <-> exists steps le re k,
          descend steps l = Some (Mapping le)
          /\ descend steps r = Some (Mapping re)
          /\ In k (keys re) /\ ~ In k (keys le)
          /\ q = key_path (path_of path steps) k).
Proof.
  intros Hwf. rewrite !(in_compare_iff _ _ _ _ Hwf). split; split.
  - intros [steps [a [b [Ha [Hb H]]]]].
    apply in_node_MissingInRight in H as [le [re [k [-> [-> H]]]]].
    now exists steps, le, re, k.
  - intros [steps [le [re [k [Ha [Hb H]]]]]].
    exists steps, (Mapping le), (Mapping re). repeat split; try assumption.
    apply in_node_MissingInRight. now exists le, re, k.
  - intros [steps [a [b [Ha [Hb H]]]]].
    apply in_node_MissingInLeft in H as [le [re [k [-> [-> H]]]]].
    now exists steps, le, re, k.
  - intros [steps [le [re [k [Ha [Hb H]]]]]].
    exists steps, (Mapping le), (Mapping re). repeat split; try assumption.
    apply in_node_MissingInLeft. now exists le, re, k.
Qed.

Lemma missing_key_records_witness :
  In (MissingInRight "root[0].a")
     (compare "root" (Sequence [Mapping [("a", int 1)]])
                     (Sequence [Mapping [("b", int 1)]]))
  /\ In (MissingInLeft "root[0].b")
        (compare "root" (Sequence [Mapping [("a", int 1)]])
                        (Sequence [Mapping [("b", int 1)]])).
Proof.
  split.
  - apply (proj2 (proj1 (missing_key_records "root"
                           (Sequence [Mapping [("a", int 1)]])
                           (Sequence [Mapping [("b", int 1)]])
                           "root[0].a" eq_refl))).
    exists [Index 0], [("a", int 1)], [("b", int 1)], "a".
    repeat split; [now left|].
    intros [H|[]]. discriminate.
  - apply (proj2 (proj2 (missing_key_records "root"
                           (Sequence [Mapping [("a", int 1)]])
                           (Sequence [Mapping [("b", int 1)]])
                           "root[0].b" eq_refl))).
    exists [Index 0], [("a", int 1)], [("b", int 1)], "b".
    repeat split; [now left|].
    intros [H|[]]. discriminate.
Defined.

(** X4: the length-mismatch records are exactly the pairs of lists of
    different lengths at shared positions, each reported at the path of
    its position. *)
Theorem length_mismatch_records path l r q :
  wf l = true ->
  (In (LengthMismatch q) (compare path l r)
   <-> exists steps ls rs,
       descend steps l = Some (Sequence ls)
       /\ descend steps r = Some (Sequence rs)
       /\ List.length ls <> List.length rs
       /\ q = path_of path steps).
Proof.
  intros Hwf. rewrite (in_compare_iff _ _ _ _ Hwf). split.
  - intros [steps [a [b [Ha [Hb H]]]]].
    apply in_node_LengthMismatch in H as [ls [rs [-> [-> [Hlen ->]]]]].
    now exists steps, ls, rs.
  - intros [steps [ls [rs [Ha [Hb [Hlen ->]]]]]].
    exists steps, (Sequence ls), (Sequence rs). repeat split; try assumption.
    apply in_node_LengthMismatch. now exists ls, rs.
Qed.

Lemma length_mismatch_records_witness :
  In (LengthMismatch "root.k")
     (compare "root" (Mapping [("k", Sequence [int 1])])
                     (Mapping [("k", Sequence [])])).
Proof.
  apply (proj2 (length_mismatch_records "root"
                  (Mapping [("k", Sequence [int 1])])
                  (Mapping [("k", Sequence [])]) "root.k" eq_refl)).
  exists [Key "k"], [int 1], []. repeat split. simpl. lia.
Defined.

(* ================================================================= *)
(** ** How deep the calls of [compare] nest *)

Lemma max_left_keys_ge f (le re : list (string * Value)) kv rv :
  In kv le -> lookup (fst kv) re = Some rv ->
  S (f (snd kv) rv) <= max_left_keys f le re.
Proof.
  induction le as [|a le IH]; simpl; [contradiction|].
  intros [->|Hin] Hl.
  - rewrite Hl. lia.
  - specialize (IH Hin Hl). lia.
Qed.

Lemma max_left_keys_attained f (le re : list (string * Value)) :
  0 < max_left_keys f le re ->
  exists kv rv,
    In kv le /\ lookup (fst kv) re = Some rv
    /\ max_left_keys f le re = S (f (snd kv) rv).
Proof.
  induction le as [|a le IH]; simpl; [lia|]. intros Hpos.
  destruct (lookup (fst a) re) as [rv|] eqn:Hl.
  - destruct (Nat.le_ge_cases (max_left_keys f le re) (S (f (snd a) rv)))
      as [Hle|Hge].
    + exists a, rv. repeat split; [now left | assumption | lia].
    + destruct IH as [kv [rv' [Hin [Hl' Hm]]]]; [lia|].
      exists kv, rv'. repeat split; [now right | assumption | lia].
  - destruct IH as [kv [rv' [Hin [Hl' Hm]]]]; [lia|].
    exists kv, rv'. repeat split; [now right | assumption | lia].
Qed.

Lemma max_indices_ge f ls rs i x y :
  nth_error ls i = Some x -> nth_error rs i = Some y ->
  f x y <= max_indices f ls rs.
Proof.
  revert rs i. induction ls as [|a ls IH]; intros rs i Hx Hy.
  - destruct i; discriminate.
  - destruct rs as [|b rs]; [destruct i; discriminate|].
    destruct i as [|i]; simpl in *.
    + injection Hx as <-. injection Hy as <-. lia.
    + specialize (IH _ _ Hx Hy). lia.
Qed.

Lemma max_indices_attained f ls rs :
  0 < max_indices f ls rs ->
  exists i x y,
    nth_error ls i = Some x /\ nth_error rs i = Some y
    /\ max_indices f ls rs = f x y.
Proof.
  revert rs. induction ls as [|a ls IH]; intros rs; simpl; [lia|].
  destruct rs as [|b rs]; [lia|]. intros Hpos.
  destruct (Nat.le_ge_cases (max_indices f ls rs) (f a b)) as [Hle|Hge].
  - exists 0, a, b. repeat split. lia.
  - destruct (IH rs) as [i [x [y [Hx [Hy Hm]]]]]; [lia|].
    exists (S i), x, y. repeat split; try assumption. lia.
Qed.

Lemma for_each_None {A : Type} (f : A -> option (list Record)) xs :
  (exists x, In x xs /\ f x = None) -> for_each f xs = None.
Proof.
  induction xs as [|a xs IH]; intros [x [Hin Hx]]; [contradiction|].
  simpl. destruct (f a) as [out|] eqn:Ha; [|reflexivity]. simpl.
  destruct Hin as [->|Hin]; [congruence|].
  rewrite IH; [reflexivity|]. now exists x.
Qed.

Lemma compare_within_returns frames :
  forall path l r,
    wf l = true ->
    walk_depth l r < frames ->
    compare_within frames path l r = Some (compare path l r).
Proof.
  induction frames as [|n IH]; intros path l r Hwf Hd; [lia|].
  destruct l as [a|ls|le], r as [b|rs|re];
    try (cbn [compare_within compare_step compare];
         now rewrite app_nil_r).
  - cbn [compare_within compare_step].
    rewrite compare_Sequence, (for_indices_seq _ (Leaf SNull)).
    erewrite for_each_flat_map; [reflexivity|].
    intros i Hi. apply in_seq in Hi.
    assert (Hil : i < List.length ls) by lia.
    assert (Hir : i < List.length rs) by lia.
    pose proof (nth_error_nth' ls (Leaf SNull) Hil) as Hx.
    pose proof (nth_error_nth' rs (Leaf SNull) Hir) as Hy.
    rewrite Hx, Hy. simpl.
    apply IH; [exact (wf_item _ _ Hwf (nth_error_In _ _ Hx))|].
    pose proof (max_indices_ge (fun x y => S (walk_depth x y)) _ _ _ _ _ Hx Hy)
      as Hge.
    cbn beta in Hge. cbn [walk_depth] in Hd. lia.
  - assert (Hdk : distinct (keys le) = true).
    { simpl in Hwf. now apply andb_true_iff in Hwf as [Hdk _]. }
    cbn [compare_within compare_step].
    rewrite compare_Mapping, (for_left_keys_lookup _ _ _ _ Hdk).
    erewrite for_each_flat_map; [reflexivity|].
    intros k Hk. simpl. unfold has_key.
    destruct (lookup k re) as [rv|] eqn:Hr; [|reflexivity].
    apply has_key_In in Hk. unfold has_key in Hk.
    destruct (lookup k le) as [lv|] eqn:Hl; [|discriminate]. simpl.
    apply lookup_In in Hl.
    apply IH; [exact (wf_entry _ _ _ Hwf Hl)|].
    pose proof (max_left_keys_ge walk_depth le re (k, lv) rv Hl Hr) as Hge.
    cbn [walk_depth fst snd] in Hd, Hge. lia.
Qed.

Lemma compare_within_overflows frames :
  forall path l r,
    wf l = true ->
    frames <= walk_depth l r ->
    compare_within frames path l r = None.
Proof.
  induction frames as [|n IH]; intros path l r Hwf Hd; [reflexivity|].
  destruct l as [a|ls|le], r as [b|rs|re]; cbn [walk_depth] in Hd; try lia.
  - destruct (max_indices_attained (fun x y => S (walk_depth x y)) ls rs)
      as [i [x [y [Hx [Hy Hm]]]]]; [lia|].
    cbn [compare_within compare_step].
    rewrite (for_each_None _ (seq 0 (Nat.min (List.length ls) (List.length rs))));
      [reflexivity|].
    exists i. split.
    + apply in_seq.
      pose proof (proj1 (nth_error_Some ls i)) as H1.
      pose proof (proj1 (nth_error_Some rs i)) as H2.
      rewrite Hx in H1. rewrite Hy in H2.
      assert (i < List.length ls) by (apply H1; discriminate).
      assert (i < List.length rs) by (apply H2; discriminate). lia.
    + rewrite Hx, Hy. simpl.
      apply IH; [exact (wf_item _ _ Hwf (nth_error_In _ _ Hx)) | lia].
  - destruct (max_left_keys_attained walk_depth le re)
      as [[k lv] [rv [Hin [Hr Hm]]]]; [lia|].
    cbn [fst snd] in Hr, Hm.
    assert (Hdk : distinct (keys le) = true).
    { simpl in Hwf. now apply andb_true_iff in Hwf as [Hdk _]. }
    cbn [compare_within compare_step].
    rewrite (for_each_None _ (keys le)); [reflexivity|].
    exists k. split; [exact (in_map fst _ _ Hin)|].
    unfold has_key. rewrite Hr, (lookup_distinct _ _ _ Hdk Hin). simpl.
    apply IH; [exact (wf_entry _ _ _ Hwf Hin) | lia].
Qed.

(** X5: the calls of [compare] nest exactly [walk_depth l r + 1] deep,
    the walk going on only through keys and indices that both values
    have.  A bound on the nesting of [compare]'s own calls is met, and
    the run gives the records of [compare], exactly when the bound is
    larger than [walk_depth l r]; any smaller bound is exceeded.  (Only
    the calls of [compare] are counted, not what the interpreter needs
    inside [!=] and [print].) *)
Theorem compare_nesting_depth frames path l r :
  wf l = true ->
  compare_within frames path l r
  = if (walk_depth l r <? frames)%nat then Some (compare path l r) else None.
Proof.
  intros Hwf. destruct (Nat.ltb_spec (walk_depth l r) frames).
  - now apply compare_within_returns.
  - now apply compare_within_overflows.
Qed.

Lemma compare_nesting_depth_witness :
  compare_within 1 "root" (Sequence [Sequence [int 1]]) (Sequence [Sequence []])
  = None
  /\ compare_within 2 "root" (Sequence [Sequence [int 1]])
                             (Sequence [Sequence []])
     = Some (compare "root" (Sequence [Sequence [int 1]])
                            (Sequence [Sequence []])).
Proof.
  split.
  - exact (compare_nesting_depth 1 "root" (Sequence [Sequence [int 1]])
             (Sequence [Sequence []]) eq_refl).
  - exact (compare_nesting_depth 2 "root" (Sequence [Sequence [int 1]])
             (Sequence [Sequence []]) eq_refl).
Defined.

(* ================================================================= *)
(** ** Empty containers and containers of different kinds *)

Lemma for_left_keys_empty_right body path (le : list (string * Value)) :
  for_left_keys body path le []
  = map (fun k => MissingInRight (key_path path k)) (keys le).
Proof. induction le as [|kv le IH]; simpl; [reflexivity | now rewrite IH]. Qed.

Lemma for_right_keys_empty_left path (re : list (string * Value)) :
  for_right_keys path [] re
  = map (fun k => MissingInLeft (key_path path k)) (keys re).
Proof.
  unfold for_right_keys.
  induction (keys re) as [|k ks IH]; [reflexivity|].
  cbn [flat_map map]. now rewrite IH.
Qed.

(** X6: edge cases.  Against an empty dictionary, a non-empty one gives
    the value mismatch and then one missing-key record per key, in
    insertion order, without any recursion; against an empty list, a
    non-empty one gives the value mismatch and the length mismatch only;
    two empty containers of the same kind give nothing; and a dictionary
    against a list gives the value mismatch alone, even when both are
    empty. *)
Theorem compare_empty_containers path :
  (forall kv re,
      compare path (Mapping []) (Mapping (kv :: re))
      = Difference path (Mapping []) (Mapping (kv :: re))
        :: map (fun k => MissingInLeft (key_path path k)) (keys (kv :: re)))
  /\ (forall kv le,
         compare path (Mapping (kv :: le)) (Mapping [])
         = Difference path (Mapping (kv :: le)) (Mapping [])
           :: map (fun k => MissingInRight (key_path path k))
                  (keys (kv :: le)))
  /\ (forall y rs,
         compare path (Sequence []) (Sequence (y :: rs))
         = [ Difference path (Sequence []) (Sequence (y :: rs));
             LengthMismatch path ])
  /\ (forall x ls,
         compare path (Sequence (x :: ls)) (Sequence [])
         = [ Difference path (Sequence (x :: ls)) (Sequence []);
             LengthMismatch path ])
  /\ compare path (Mapping []) (Mapping []) = []
  /\ compare path (Sequence []) (Sequence []) = []
  /\ (forall le rs,
         compare path (Mapping le) (Sequence rs)
         = [Difference path (Mapping le) (Sequence rs)])
  /\ (forall ls re,
         compare path (Sequence ls) (Mapping re)
         = [Difference path (Sequence ls) (Mapping re)]).
Proof.
  repeat apply conj; try reflexivity.
  intros kv le. rewrite compare_Mapping, for_left_keys_empty_right.
  unfold for_right_keys. cbn [keys map flat_map].
  rewrite app_nil_r. reflexivity.
Qed.

(* ================================================================= *)
(** ** Exchanging the arguments *)

Lemma float_eq_sym f g : float_eq f g = float_eq g f.
Proof.
  destruct f as [s|s| |s m e], g as [t|t| |t n d]; simpl; try reflexivity.
  - now destruct s, t.
  - now rewrite (Z.min_comm e d), Z.eqb_sym.
Qed.

Lemma number_eq_sym x y : number_eq x y = number_eq y x.
Proof.
  destruct x, y; simpl; try reflexivity.
  - apply Z.eqb_sym.
  - apply float_eq_sym.
Qed.

Lemma scalar_eq_sym a b : scalar_eq a b = scalar_eq b a.
Proof.
  destruct a as [|x|x|f|s], b as [|y|y|g|t]; simpl; try reflexivity;
    try apply Z.eqb_sym.
  - apply float_eq_sym.
  - apply String.eqb_sym.
Qed.

Lemma identical_sym x y : identical x y = identical y x.
Proof. unfold identical. apply andb_comm. Qed.

Lemma bool_eq_iff (a b : bool) : (a = true <-> b = true) -> a = b.
Proof. destruct a, b; intros [H1 H2]; auto; symmetry; auto. Qed.

(** The entries of [le] all have an equal partner in [re]. *)
Lemma entries_match_swap (R : Value -> Value -> bool)
      (le re : list (string * Value)) :
  (forall kx x ky y, In (kx, x) le -> In (ky, y) re -> R x y = R y x) ->
  List.length le = List.length re ->
  distinct (keys le) = true ->
  distinct (keys re) = true ->
  forallb (fun kv => match lookup (fst kv) re with
                     | Some rv => R (snd kv) rv
                     | None => false
                     end) le = true ->
  forallb (fun kv => match lookup (fst kv) le with
                     | Some lv => R (snd kv) lv
                     | None => false
                     end) re = true.
Proof.
  intros Hsym Hlen Hdl Hdr Hall.
  rewrite forallb_forall in *.
  assert (Hincl : incl (keys le) (keys re)).
  { intros k Hk. apply in_map_iff in Hk as [kv [<- Hin]].
    specialize (Hall _ Hin). apply has_key_In. unfold has_key.
    destruct (lookup (fst kv) re); [reflexivity | discriminate]. }
  pose proof (keys_incl_back le re Hdl Hlen Hincl) as Hback.
  intros [k rv] Hin. simpl.
  assert (Hk : In k (keys le)) by (apply Hback; exact (in_map fst _ _ Hin)).
  apply has_key_In in Hk. unfold has_key in Hk.
  destruct (lookup k le) as [lv|] eqn:Hl; [|discriminate].
  apply lookup_In in Hl.
  specialize (Hall _ Hl). simpl in Hall.
  rewrite (lookup_distinct k rv re Hdr Hin) in Hall.
  now rewrite <- (Hsym _ _ _ _ Hl Hin).
Qed.

Lemma wf_distinct es : wf (Mapping es) = true -> distinct (keys es) = true.
Proof. simpl. rewrite andb_true_iff. tauto. Qed.

(** [==] is symmetric. *)
Lemma py_eq_sym l :
  forall r, wf l = true -> wf r = true -> py_eq l r = py_eq r l.
Proof.
  induction l as [a|xs IH|es IH] using Value_ind; intros r Hwl Hwr.
  - destruct r; simpl; [apply scalar_eq_sym | reflexivity | reflexivity].
  - destruct r as [b|ys|re]; try reflexivity.
    simpl. rewrite (Nat.eqb_sym (List.length xs)). f_equal.
    simpl in Hwl, Hwr. revert ys Hwr.
    induction IH as [|x xs Hx _ IHxs]; intros ys Hwr.
    + now destruct ys.
    + destruct ys as [|y ys]; [reflexivity|].
      simpl in *. apply andb_true_iff in Hwl as [Hwx Hwxs].
      apply andb_true_iff in Hwr as [Hwy Hwys].
      now rewrite (identical_sym x y), (Hx y Hwx Hwy), (IHxs Hwxs ys Hwys).
  - destruct r as [b|ys|re]; try reflexivity.
    simpl. rewrite (Nat.eqb_sym (List.length es)).
    destruct (Nat.eqb_spec (List.length re) (List.length es)) as [Hlen|];
      [|reflexivity].
    simpl. rewrite Forall_forall in IH.
    assert (Hsym : forall kx x ky y,
               In (kx, x) es -> In (ky, y) re ->
               identical x y || py_eq x y = identical y x || py_eq y x).
    { intros kx x ky y Hx Hy.
      rewrite (identical_sym x y).
      pose proof (IH _ Hx y (wf_entry _ _ _ Hwl Hx) (wf_entry _ _ _ Hwr Hy))
        as E.
      simpl in E. now rewrite E. }
    apply bool_eq_iff. split.
    + apply (entries_match_swap (fun x y => identical x y || py_eq x y));
        auto using wf_distinct.
    + apply (entries_match_swap (fun x y => identical x y || py_eq x y));
        auto using wf_distinct.
      intros kx x ky y Hx Hy. symmetry. eapply Hsym; eassumption.
Qed.

Lemma py_ne_sym l r : wf l = true -> wf r = true -> py_ne l r = py_ne r l.
Proof. intros Hl Hr. unfold py_ne. now rewrite (py_eq_sym l r Hl Hr). Qed.

Lemma mirror_own_record path l r :
  wf l = true -> wf r = true ->
  map mirror (own_record path l r) = own_record path r l.
Proof.
  intros Hl Hr. unfold own_record. rewrite (py_ne_sym l r Hl Hr).
  now destruct (py_ne r l).
Qed.

Lemma mirror_length_record path ls rs :
  map mirror (length_record path ls rs) = length_record path rs ls.
Proof.
  unfold length_record. rewrite (Nat.eqb_sym (List.length ls)).
  now destruct (List.length rs =? List.length ls)%nat.
Qed.

Lemma map_of_flat_map {A B C : Type} (h : B -> C) (g : A -> list B) xs :
  map h (flat_map g xs) = flat_map (fun x => map h (g x)) xs.
Proof.
  induction xs as [|x xs IH]; simpl; [reflexivity|].
  now rewrite map_app, IH.
Qed.

Lemma flat_map_partition {A B : Type} (f : A -> bool) (g : A -> list B) xs :
  Permutation (flat_map g xs)
              (flat_map g (filter f xs)
               ++ flat_map g (filter (fun x => negb (f x)) xs)).
Proof.
  induction xs as [|x xs IH]; simpl; [constructor|].
  destruct (f x); simpl.
  - rewrite <- app_assoc. now apply Permutation_app_head.
  - rewrite IH. apply Permutation_app_swap_app.
Qed.

Lemma flat_map_pointwise {A B : Type} (f g : A -> list B) xs :
  (forall x, In x xs -> Permutation (f x) (g x)) ->
  Permutation (flat_map f xs) (flat_map g xs).
Proof.
  induction xs as [|x xs IH]; intros H; simpl; [constructor|].
  apply Permutation_app; [apply H; now left|].
  apply IH. intros y Hy. apply H. now right.
Qed.

Lemma flat_map_singletons {A B : Type} (g : A -> list B) (h : A -> B) xs :
  (forall x, In x xs -> g x = [h x]) -> flat_map g xs = map h xs.
Proof.
  induction xs as [|x xs IH]; intros H; simpl; [reflexivity|].
  rewrite (H x) by now left.
  rewrite IH by (intros; apply H; now right). reflexivity.
Qed.

(** The keys two dictionaries share, listed from either side. *)
Lemma shared_keys_permutation (le re : list (string * Value)) :
  distinct (keys le) = true ->
  distinct (keys re) = true ->
  Permutation (filter (fun k => has_key k re) (keys le))
              (filter (fun k => has_key k le) (keys re)).
Proof.
  intros Hl Hr. apply distinct_NoDup in Hl, Hr.
  apply NoDup_Permutation; try now apply NoDup_filter.
  intros k. rewrite !filter_In, !has_key_In. tauto.
Qed.

(** The output for two dictionaries, the shared keys first. *)
Lemma compare_Mapping_sorted path le re :
  distinct (keys le) = true ->
  Permutation
    (compare path (Mapping le) (Mapping re))
    (own_record path (Mapping le) (Mapping re)
     ++ flat_map (fun k =>
                    match lookup k le, lookup k re with
                    | Some lv, Some rv => compare (key_path path k) lv rv
                    | _, _ => []
                    end)
                 (filter (fun k => has_key k re) (keys le))
     ++ map (fun k => MissingInRight (key_path path k))
            (filter (fun k => negb (has_key k re)) (keys le))
     ++ map (fun k => MissingInLeft (key_path path k))
            (filter (fun k => negb (has_key k le)) (keys re))).
Proof.
  intros Hd.
  rewrite compare_Mapping, (for_left_keys_lookup _ _ _ _ Hd),
    for_right_keys_filter.
  apply Permutation_app_head.
  rewrite (app_assoc (flat_map _ _)). apply Permutation_app_tail.
  rewrite (flat_map_partition (fun k => has_key k re)).
  apply Permutation_app.
  - apply flat_map_pointwise. intros k Hk.
    apply filter_In in Hk as [_ Hk]. unfold has_key in Hk.
    destruct (lookup k re); [|discriminate].
    now destruct (lookup k le).
  - erewrite flat_map_singletons; [reflexivity|].
    intros k Hk. apply filter_In in Hk as [_ Hk]. simpl.
    apply negb_true_iff, lookup_None in Hk. now rewrite Hk.
Qed.

Lemma compare_mirror_perm l :
  forall path r,
    wf l = true -> wf r = true ->
    Permutation (map mirror (compare path l r)) (compare path r l).
Proof.
  induction l as [a|xs IH|es IH] using Value_ind; intros path r Hwl Hwr.
  - rewrite compare_Leaf_l, compare_Leaf_r.
    now rewrite mirror_own_record.
  - destruct r as [b|ys|re].
    + rewrite compare_Leaf_l, compare_Leaf_r.
      now rewrite mirror_own_record.
    + rewrite !compare_Sequence, !map_app.
      rewrite mirror_own_record, mirror_length_record by assumption.
      do 2 apply Permutation_app_head.
      simpl in Hwl, Hwr. generalize 0 as i. revert ys Hwr.
      induction IH as [|x xs Hx _ IHxs]; intros ys Hwr i.
      * destruct ys; constructor.
      * destruct ys as [|y ys]; [constructor|].
        simpl in *. apply andb_true_iff in Hwl as [Hwx Hwxs].
        apply andb_true_iff in Hwr as [Hwy Hwys].
        rewrite map_app. apply Permutation_app; auto.
    + rewrite compare_Sequence_Mapping, compare_Mapping_Sequence.
      now rewrite mirror_own_record.
  - destruct r as [b|ys|re].
    + rewrite compare_Leaf_l, compare_Leaf_r.
      now rewrite mirror_own_record.
    + rewrite compare_Sequence_Mapping, compare_Mapping_Sequence.
      now rewrite mirror_own_record.
    + pose proof (wf_distinct _ Hwl) as Hdl.
      pose proof (wf_distinct _ Hwr) as Hdr.
      rewrite (compare_Mapping_sorted path es re Hdl).
      rewrite (compare_Mapping_sorted path re es Hdr).
      rewrite !map_app, mirror_own_record by assumption.
      apply Permutation_app_head.
      rewrite !map_map. cbn [mirror].
      apply Permutation_app; [|apply Permutation_app_comm].
      rewrite map_of_flat_map.
      rewrite <- (shared_keys_permutation es re Hdl Hdr).
      apply flat_map_pointwise. intros k Hk.
      apply filter_In in Hk as [Hk Hkr].
      apply has_key_In in Hk. unfold has_key in Hk, Hkr.
      destruct (lookup k es) as [lv|] eqn:El; [|discriminate].
      destruct (lookup k re) as [rv|] eqn:Er; [|discriminate].
      apply lookup_In in El, Er. rewrite Forall_forall in IH.
      exact (IH _ El _ rv (wf_entry _ _ _ Hwl El) (wf_entry _ _ _ Hwr Er)).
Qed.

(** X7: exchanging the two arguments gives the same records, mirrored
    and up to their order: the operands of every value mismatch change
    places, "missing key in right" and "missing key in left" change
    roles, length mismatches stay; in particular both calls print the
    same number of records. *)
Theorem compare_exchange path l r :
  wf l = true -> wf r = true ->
  Permutation (map mirror (compare path l r)) (compare path r l)
  /\ List.length (compare path l r) = List.length (compare path r l).
Proof.
  intros Hl Hr.
  pose proof (compare_mirror_perm l path r Hl Hr) as H.
  split; [exact H|].
  apply Permutation_length in H. now rewrite length_map in H.
Qed.

Lemma compare_exchange_witness :
  Permutation
    (map mirror
         (compare "root" (Mapping [("a", int 1); ("b", Sequence [int 2])])
                         (Mapping [("c", int 0); ("b", Sequence [])])))
    (compare "root" (Mapping [("c", int 0); ("b", Sequence [])])
                    (Mapping [("a", int 1); ("b", Sequence [int 2])])).
Proof.
  exact (proj1 (compare_exchange "root"
                  (Mapping [("a", int 1); ("b", Sequence [int 2])])
                  (Mapping [("c", int 0); ("b", Sequence [])])
                  eq_refl eq_refl)).
Defined.

(* ================================================================= *)
(** ** Two documents that differ in one place *)

Lemma lookup_set_key k' k v (d : list (string * Value)) :
  lookup k' (Json.set_key k v d)
  = if (k' =? k)%string then Some v else lookup k' d.
Proof.
  induction d as [|[k0 v0] d IH]; simpl.
  - reflexivity.
  - destruct (String.eqb_spec k k0) as [->|Hne]; simpl.
    + now destruct (k' =? k0)%string.
    + rewrite IH. destruct (String.eqb_spec k' k0) as [->|Hne'];
        [|reflexivity].
      destruct (String.eqb_spec k0 k) as [->|]; [contradiction | reflexivity].
Qed.

Lemma keys_set_key k v (d : list (string * Value)) :
  In k (keys d) -> keys (Json.set_key k v d) = keys d.
Proof.
  induction d as [|[k0 v0] d IH]; simpl; [contradiction|].
  destruct (String.eqb_spec k k0) as [->|Hne]; [reflexivity|].
  intros [H|H]; [congruence|]. simpl. now rewrite IH.
Qed.

Lemma length_set_nth i v xs : List.length (set_nth i v xs) = List.length xs.
Proof.
  revert i. induction xs as [|x xs IH]; intros [|i]; simpl; auto.
Qed.

Lemma nth_error_set_nth i v xs j :
  i < List.length xs ->
  nth_error (set_nth i v xs) j
  = if (j =? i)%nat then Some v else nth_error xs j.
Proof.
  revert i j. induction xs as [|x xs IH]; intros i j Hi; simpl in Hi; [lia|].
  destruct i as [|i], j as [|j]; simpl; try reflexivity.
  apply IH. lia.
Qed.

Lemma flat_map_all_nil {A B : Type} (g : A -> list B) xs :
  (forall y, In y xs -> g y = []) -> flat_map g xs = [].
Proof.
  induction xs as [|a xs IH]; intros H; simpl; [reflexivity|].
  rewrite (H a) by now left.
  apply IH. intros y Hy. apply H. now right.
Qed.

Lemma flat_map_single {A B : Type} (g : A -> list B) x xs :
  NoDup xs -> In x xs ->
  (forall y, In y xs -> y <> x -> g y = []) ->
  flat_map g xs = g x.
Proof.
  induction xs as [|a xs IH]; intros Hnd Hin Hnil; [contradiction|].
  inversion Hnd as [|? ? Ha Hxs]; subst. simpl.
  destruct Hin as [->|Hin].
  - rewrite flat_map_all_nil; [apply app_nil_r|].
    intros y Hy. apply Hnil; [now right|]. intros ->. contradiction.
  - rewrite (Hnil a); [|now left|intros ->; contradiction].
    simpl. apply IH; try assumption.
    intros y Hy. apply Hnil. now right.
Qed.

Lemma compare_same_nil path v :
  wf v = true -> nan_free v = true -> compare path v v = [].
Proof.
  intros Hwf Hn. apply compare_eq_nil; auto.
  apply py_eq_refl; [assumption | now apply nan_free_not_nan].
Qed.

Lemma nan_free_item x xs :
  nan_free (Sequence xs) = true -> In x xs -> nan_free x = true.
Proof. simpl. rewrite forallb_forall. auto. Qed.

Lemma member_child s v m : member s v = Some m -> child m v.
Proof.
  destruct s as [k|i], v as [a|xs|es]; try discriminate; simpl; intros H.
  - apply (child_entry k). now apply lookup_In.
  - constructor. eapply nth_error_In. eassumption.
Qed.

Lemma wf_child m v : child m v -> wf v = true -> wf m = true.
Proof.
  intros [x xs Hin|k x es Hin] H;
    [exact (wf_item _ _ H Hin) | exact (wf_entry _ _ _ H Hin)].
Qed.

Lemma nan_free_child m v : child m v -> nan_free v = true -> nan_free m = true.
Proof.
  intros [x xs Hin|k x es Hin] H;
    [exact (nan_free_item _ _ H Hin) | exact (nan_free_entry _ _ _ H Hin)].
Qed.

Lemma member_set_member s v m x :
  member s v = Some m -> member s (set_member s x v) = Some x.
Proof.
  destruct s as [k|i], v as [a|xs|es]; try discriminate; simpl; intros H.
  - now rewrite lookup_set_key, String.eqb_refl.
  - rewrite nth_error_set_nth, Nat.eqb_refl; [reflexivity|].
    apply nth_error_Some. congruence.
Qed.

Lemma all2_member_changed (R : Value -> Value -> bool) xs i m m' :
  nth_error xs i = Some m -> R m m' = false ->
  all2 R xs (set_nth i m' xs) = false.
Proof.
  revert i. induction xs as [|x xs IH]; intros [|i] Hm HR;
    try discriminate; simpl in *.
  - injection Hm as ->. now rewrite HR.
  - rewrite (IH i Hm HR). apply andb_false_r.
Qed.

Lemma py_ne_member_changed s l m m' :
  member s l = Some m -> rich_eq m m' = false ->
  py_ne l (set_member s m' l) = true.
Proof.
  unfold py_ne, rich_eq.
  destruct s as [k|i], l as [a|xs|es]; try discriminate; simpl;
    intros Hm HR; apply negb_true_iff.
  - apply andb_false_iff. right.
    destruct (forallb _ es) eqn:E; [|reflexivity].
    rewrite forallb_forall in E.
    specialize (E _ (lookup_In _ _ _ Hm)). simpl in E.
    rewrite lookup_set_key, String.eqb_refl in E. congruence.
  - apply andb_false_iff. right.
    now apply (all2_member_changed _ _ _ _ _ Hm).
Qed.

Lemma one_member_changed_Mapping path le k m m' :
  wf (Mapping le) = true ->
  nan_free (Mapping le) = true ->
  lookup k le = Some m ->
  for_left_keys (fun k lv rv => compare (key_path path k) lv rv)
                path le (Json.set_key k m' le)
  ++ for_right_keys path le (Json.set_key k m' le)
  = compare (key_path path k) m m'.
Proof.
  intros Hwf Hn Hm.
  pose proof (wf_distinct _ Hwf) as Hd.
  assert (Hk : In k (keys le)).
  { apply has_key_In. unfold has_key. now rewrite Hm. }
  rewrite (proj2 (for_right_keys_nil path le (Json.set_key k m' le)))
    by (rewrite (keys_set_key _ _ _ Hk); apply incl_refl).
  rewrite app_nil_r, (for_left_keys_lookup _ _ _ _ Hd).
  rewrite (flat_map_single _ k); try assumption.
  - now rewrite lookup_set_key, String.eqb_refl, Hm.
  - now apply distinct_NoDup.
  - intros k' Hk' Hne. rewrite lookup_set_key.
    destruct (String.eqb_spec k' k) as [->|_]; [contradiction|].
    apply has_key_In in Hk'. unfold has_key in Hk'.
    destruct (lookup k' le) as [v'|] eqn:Hv; [|discriminate].
    apply lookup_In in Hv.
    apply compare_same_nil;
      [exact (wf_entry _ _ _ Hwf Hv) | exact (nan_free_entry _ _ _ Hn Hv)].
Qed.

Lemma one_member_changed_Sequence path xs i m m' :
  wf (Sequence xs) = true ->
  nan_free (Sequence xs) = true ->
  nth_error xs i = Some m ->
  length_record path xs (set_nth i m' xs)
  ++ for_indices (fun i x y => compare (index_path path i) x y)
                 0 xs (set_nth i m' xs)
  = compare (index_path path i) m m'.
Proof.
  intros Hwf Hn Hm.
  assert (Hi : i < List.length xs) by (apply nth_error_Some; congruence).
  rewrite (proj2 (length_record_nil path xs (set_nth i m' xs)))
    by (now rewrite length_set_nth).
  rewrite (for_indices_seq _ (Leaf SNull)), length_set_nth, Nat.min_id.
  simpl app. rewrite (flat_map_single _ i).
  - rewrite (nth_error_nth _ _ _ Hm).
    assert (H : nth_error (set_nth i m' xs) i = Some m').
    { now rewrite nth_error_set_nth, Nat.eqb_refl. }
    now rewrite (nth_error_nth _ _ _ H).
  - apply seq_NoDup.
  - apply in_seq. lia.
  - intros j Hj Hne. apply in_seq in Hj.
    assert (Hjl : j < List.length xs) by lia.
    pose proof (nth_error_nth' xs (Leaf SNull) Hjl) as Hx.
    assert (H : nth_error (set_nth i m' xs) j = Some (nth j xs (Leaf SNull))).
    { rewrite nth_error_set_nth by assumption.
      destruct (Nat.eqb_spec j i); [contradiction | assumption]. }
    rewrite (nth_error_nth _ _ _ H). simpl.
    pose proof (nth_error_In _ _ Hx) as Hin.
    apply compare_same_nil;
      [exact (wf_item _ _ Hwf Hin) | exact (nan_free_item _ _ Hn Hin)].
Qed.

Lemma compare_single_change_spine steps :
  forall path l r a b,
    wf l = true ->
    nan_free l = true ->
    descend steps l = Some a ->
    replace_at steps b l = Some r ->
    py_ne a b = true ->
    py_ne l r = true
    /\ compare path l r
       = spine path steps l r ++ compare (path_of path steps) a b
    /\ List.length (spine path steps l r) = List.length steps.
Proof.
  induction steps as [|s steps IH]; intros path l r a b Hwf Hn Ha Hr Hne.
  - injection Ha as <-. injection Hr as <-. repeat split. assumption.
  - simpl in Ha, Hr.
    destruct (member s l) as [m|] eqn:Hm; [|discriminate].
    destruct (replace_at steps b m) as [m'|] eqn:Hm'; [|discriminate].
    injection Hr as <-.
    pose proof (member_child _ _ _ Hm) as Hc.
    pose proof (wf_child _ _ Hc Hwf) as Hwm.
    pose proof (nan_free_child _ _ Hc Hn) as Hnm.
    destruct (IH (step_path path s) m m' a b Hwm Hnm Ha Hm' Hne)
      as [Hne' [Hcmp Hlen]].
    assert (Hrich : rich_eq m m' = false).
    { unfold rich_eq, identical.
      rewrite (nan_free_not_nan _ Hnm). simpl.
      now apply negb_true_iff in Hne'. }
    pose proof (py_ne_member_changed s l m m' Hm Hrich) as Hown.
    split; [exact Hown|].
    cbn [spine]. rewrite Hm, (member_set_member _ _ _ m' Hm).
    rewrite path_of_cons. split; [|simpl; now rewrite Hlen].
    rewrite <- app_comm_cons, <- Hcmp.
    destruct s as [k|i], l as [x|xs|es]; try discriminate; simpl in Hm.
    + cbn [set_member] in *.
      rewrite compare_Mapping, (own_record_ne _ _ _ Hown).
      now rewrite (one_member_changed_Mapping path es k m m' Hwf Hn Hm).
    + cbn [set_member] in *.
      rewrite compare_Sequence, (own_record_ne _ _ _ Hown).
      now rewrite (one_member_changed_Sequence path xs i m m' Hwf Hn Hm).
Qed.

(** X8: two documents that differ in one place.  If [r] is [l] with
    the value [a] at some position replaced by an unequal [b] (and [l]
    holds no NaN), then [compare(path, l, r)] prints one value mismatch
    for every node on the way down to that position, from [path] itself
    on, in that order, followed by the output of comparing [a] with [b]
    at the position's path, and nothing for any other part of the
    documents.  When [a] and [b] are leaves that is one record more than
    the position is deep. *)
Theorem compare_single_change path steps l r a b :
  wf l = true ->
  nan_free l = true ->
  descend steps l = Some a ->
  replace_at steps b l = Some r ->
  py_ne a b = true ->
  compare path l r
  = spine path steps l r ++ compare (path_of path steps) a b
  /\ List.length (spine path steps l r) = List.length steps
  /\ (forall x y, a = Leaf x -> b = Leaf y ->
                  compare path l r
                  = spine path steps l r
                    ++ [Difference (path_of path steps) a b]
                  /\ List.length (compare path l r) = S (List.length steps)).
Proof.
  intros Hwf Hn Ha Hr Hne.
  destruct (compare_single_change_spine steps path l r a b Hwf Hn Ha Hr Hne)
    as [_ [Hcmp Hlen]].
  split; [exact Hcmp|]. split; [exact Hlen|].
  intros x y -> ->. rewrite Hcmp, compare_Leaf_l, (own_record_ne _ _ _ Hne).
  split; [reflexivity|]. rewrite length_app, Hlen. simpl. lia.
Qed.

Lemma compare_single_change_witness :
  compare "root"
    (Mapping [("a", Sequence [int 1; Mapping [("t", str "array")]]);
              ("b", int 0)])
    (Mapping [("a", Sequence [int 1; Mapping [("t", str "string")]]);
              ("b", int 0)])
  = spine "root" [Key "a"; Index 1; Key "t"]
      (Mapping [("a", Sequence [int 1; Mapping [("t", str "array")]]);
                ("b", int 0)])
      (Mapping [("a", Sequence [int 1; Mapping [("t", str "string")]]);
                ("b", int 0)])
    ++ compare "root.a[1].t" (str "array") (str "string").
Proof.
  exact (proj1 (compare_single_change "root" [Key "a"; Index 1; Key "t"]
                  (Mapping [("a", Sequence [int 1; Mapping [("t", str "array")]]);
                            ("b", int 0)])
                  (Mapping [("a", Sequence [int 1; Mapping [("t", str "string")]]);
                            ("b", int 0)])
                  (str "array") (str "string")
                  eq_refl eq_refl eq_refl eq_refl eq_refl)).
Defined.

(* ================================================================= *)
(** ** What the decoder returns *)

Lemma in_keys_set_key x k v (d : list (string * Value)) :
  In x (keys (Json.set_key k v d)) -> x = k \/ In x (keys d).
Proof.
  induction d as [|[k0 v0] d IH]; simpl.
  - intros [H|[]]. now left.
  - destruct (String.eqb_spec k k0) as [->|Hne]; simpl.
    + intros [H|H]; [left | right; right]; auto.
    + intros [H|H]; [right; now left|].
      destruct (IH H); [now left | right; now right].
Qed.

Lemma in_set_key kv k v (d : list (string * Value)) :
  In kv (Json.set_key k v d) -> kv = (k, v) \/ In kv d.
Proof.
  induction d as [|[k0 v0] d IH]; simpl.
  - intros [H|[]]. now left.
  - destruct (String.eqb_spec k k0) as [->|Hne]; simpl.
    + intros [H|H]; [left | right; right]; auto.
    + intros [H|H]; [right; now left|].
      destruct (IH H); [now left | right; now right].
Qed.

Lemma distinct_set_key k v (d : list (string * Value)) :
  distinct (keys d) = true -> distinct (keys (Json.set_key k v d)) = true.
Proof.
  induction d as [|[k0 v0] d IH]; simpl; [reflexivity|].
  rewrite andb_true_iff, negb_true_iff. intros [Hk Hd].
  destruct (String.eqb_spec k k0) as [->|Hne]; simpl.
  - now rewrite Hk, Hd.
  - rewrite (IH Hd), andb_true_r. apply negb_true_iff.
    match goal with |- ?b = false => destruct b eqn:E end; [|reflexivity].
    apply existsb_eqb_In in E. apply in_keys_set_key in E as [E|E].
    + congruence.
    + apply existsb_eqb_In in E. unfold keys in *. congruence.
Qed.

Lemma wf_set_key k v acc :
  wf (Mapping acc) = true -> wf v = true ->
  wf (Mapping (Json.set_key k v acc)) = true.
Proof.
  simpl. rewrite !andb_true_iff, !forallb_forall. intros [Hd Hall] Hv.
  split; [now apply distinct_set_key|].
  intros kv Hin. apply in_set_key in Hin as [->|Hin]; auto.
Qed.

Lemma wf_snoc acc v :
  wf (Sequence acc) = true -> wf v = true -> wf (Sequence (acc ++ [v])) = true.
Proof. simpl. intros Ha Hv. now rewrite forallb_app, Ha; simpl; rewrite Hv. Qed.

Ltac split_match H :=
  repeat match type of H with
         | context [match ?x with _ => _ end] => destruct x eqn:?
         end.

Lemma constant_wf s v rest : Json.constant s = Json.Done v rest -> wf v = true.
Proof.
  unfold Json.constant, Json.integer. intros H.
  split_match H; try discriminate; injection H as <- _; reflexivity.
Qed.

Lemma scanner_wf n :
  (forall s v rest, Json.value n s = Json.Done v rest -> wf v = true)
  /\ (forall s acc v rest,
         wf (Mapping acc) = true ->
         Json.members n s acc = Json.Done v rest -> wf v = true)
  /\ (forall s acc v rest,
         wf (Sequence acc) = true ->
         Json.items n s acc = Json.Done v rest -> wf v = true).
Proof.
  induction n as [|n [IHv [IHm IHi]]]; [repeat split; discriminate|].
  repeat apply conj.
  - intros s v rest H. cbn [Json.value] in H.
    destruct s as [|c s']; [discriminate|].
    destruct (Ascii.eqb c Json.quote).
    { destruct (Json.chars s'); try discriminate.
      injection H as <- _. reflexivity. }
    destruct (Ascii.eqb c "{"%char).
    { destruct (Json.skip_ws s') as [|c' s'']; [discriminate|].
      destruct (Ascii.eqb c' "}"%char).
      - injection H as <- _. reflexivity.
      - exact (IHm _ [] _ _ eq_refl H). }
    destruct (Ascii.eqb c "["%char).
    { destruct (Json.skip_ws s') as [|c' s'']; [discriminate|].
      destruct (Ascii.eqb c' "]"%char).
      - injection H as <- _. reflexivity.
      - exact (IHi _ [] _ _ eq_refl H). }
    exact (constant_wf _ _ _ H).
  - intros s acc v rest Hacc H. cbn [Json.members] in H.
    destruct s as [|c s']; [discriminate|].
    destruct (negb (Ascii.eqb c Json.quote)); [discriminate|].
    destruct (Json.chars s') as [k rest0| |]; try discriminate.
    destruct (Json.skip_ws rest0) as [|c1 rest1]; [discriminate|].
    destruct (negb (Ascii.eqb c1 ":"%char)); [discriminate|].
    destruct (Json.value n (Json.skip_ws rest1)) as [x rest2| |] eqn:Hx;
      try discriminate.
    pose proof (wf_set_key k x acc Hacc (IHv _ _ _ Hx)) as Hacc'.
    destruct (Json.skip_ws rest2) as [|c2 rest3]; [discriminate|].
    destruct (Ascii.eqb c2 "}"%char).
    + injection H as <- _. exact Hacc'.
    + destruct (Ascii.eqb c2 ","%char); [|discriminate].
      exact (IHm _ _ _ _ Hacc' H).
  - intros s acc v rest Hacc H. cbn [Json.items] in H.
    destruct (Json.value n s) as [x rest0| |] eqn:Hx; try discriminate.
    pose proof (wf_snoc acc x Hacc (IHv _ _ _ Hx)) as Hacc'.
    destruct (Json.skip_ws rest0) as [|c rest1]; [discriminate|].
    destruct (Ascii.eqb c "]"%char).
    + injection H as <- _. exact Hacc'.
    + destruct (Ascii.eqb c ","%char); [|discriminate].
      exact (IHi _ _ _ _ Hacc' H).
Qed.

(** X9: every value the decoder returns has pairwise distinct keys in
    each of its dictionaries (a repeated key in the text keeps its first
    place and its last value), and the decoder returns only after
    reading the text to its end.  So the documents that reach [compare]
    always meet the condition under which its properties are stated. *)
Theorem loads_wf s v rest :
  Json.loads s = Json.Done v rest ->
  wf v = true /\ rest = EmptyString.
Proof.
  unfold Json.loads. intros H.
  destruct (Json.value _ _) as [x rest0| |] eqn:Hx; try discriminate.
  destruct (Json.skip_ws rest0); [|discriminate].
  injection H as <- <-. split; [|reflexivity].
  exact (proj1 (scanner_wf _) _ _ _ Hx).
Qed.

Lemma loads_wf_witness :
  wf (Mapping [("a", Sequence []); ("b", Mapping [])]) = true
  /\ EmptyString = EmptyString.
Proof.
  apply (loads_wf (dq "{'a': [1, 2], 'b': {}, 'a': []}")).
  vm_compute. reflexivity.
Defined.

(* ================================================================= *)
(** ** Key order is not a difference *)

Lemma reordered_py_eq l :
  forall r, wf l = true -> nan_free l = true -> reordered l r ->
            py_eq l r = true.
Proof.
  induction l as [a|xs IH|es IH] using Value_ind; intros r Hwf Hn Hro.
  - inversion Hro; subst. simpl. apply scalar_eq_refl.
    now apply nan_free_Leaf.
  - inversion Hro as [|? ys Hall|]; subst. simpl.
    rewrite (Forall2_length Hall), Nat.eqb_refl. simpl.
    simpl in Hwf, Hn. clear Hro.
    induction Hall as [|x y xs ys Hxy Hall IHall]; [reflexivity|].
    inversion IH as [|? ? Hx IHxs]; subst.
    simpl in *. apply andb_true_iff in Hwf as [Hwx Hwxs].
    apply andb_true_iff in Hn as [Hnx Hnxs].
    rewrite (Hx y Hwx Hnx Hxy), orb_true_r. simpl. now apply IHall.
  - inversion Hro as [| |? re Hlen Hall]; subst. simpl.
    rewrite Hlen, Nat.eqb_refl. simpl.
    apply forallb_forall. intros [k v] Hin. simpl.
    destruct (Hall k v Hin) as [v' [Hl Hv]]. rewrite Hl.
    rewrite Forall_forall in IH.
    pose proof (IH _ Hin v' (wf_entry _ _ _ Hwf Hin)
                   (nan_free_entry _ _ _ Hn Hin) Hv) as E.
    simpl in E. rewrite E. apply orb_true_r.
Qed.

(** X10: the order of the keys is not a difference.  If [r] is [l] with
    the entries of its dictionaries (at any depth) listed in another
    order, and [l] holds no NaN, then [compare(path, l, r)] prints
    nothing. *)
Theorem compare_ignores_key_order path l r :
  wf l = true -> nan_free l = true -> reordered l r ->
  compare path l r = [].
Proof.
  intros Hwf Hn Hro. apply compare_eq_nil; auto.
  now apply reordered_py_eq.
Qed.

Lemma compare_ignores_key_order_witness :
  compare "root"
    (Mapping [("a", int 1); ("b", Sequence [Mapping [("x", int 0); ("y", int 2)]])])
    (Mapping [("b", Sequence [Mapping [("y", int 2); ("x", int 0)]]); ("a", int 1)])
  = [].
Proof.
  apply compare_ignores_key_order; [reflexivity | reflexivity|].
  apply reordered_mapping; [reflexivity|].
  intros k v [[= <- <-]|[[= <- <-]|[]]].
  - exists (int 1). split; [reflexivity | constructor].
  - eexists. split; [reflexivity|].
    constructor. constructor; [|constructor].
    apply reordered_mapping; [reflexivity|].
    intros k v [[= <- <-]|[[= <- <-]|[]]];
      eexists; (split; [reflexivity | constructor]).
Defined.

(* ================================================================= *)
(** ** How much is printed *)

Lemma size_pos v : 1 <= size v.
Proof. destruct v; simpl; lia. Qed.

Lemma own_record_length path l r : List.length (own_record path l r) <= 1.
Proof. unfold own_record. destruct (py_ne l r); simpl; lia. Qed.

Lemma length_record_length path ls rs :
  List.length (length_record path ls rs) <= 1.
Proof.
  unfold length_record.
  destruct (List.length ls =? List.length rs)%nat; simpl; lia.
Qed.

Lemma for_left_keys_length body path le re :
  (forall kv rv, In kv le -> lookup (fst kv) re = Some rv ->
                 List.length (body (fst kv) (snd kv) rv)
                 <= size (snd kv) + size rv) ->
  List.length (for_left_keys body path le re)
  <= list_sum (map (fun kv => size (snd kv)) le) + list_sum (map (hit re) le).
Proof.
  induction le as [|kv le IH]; intros H; simpl; [lia|].
  rewrite length_app.
  assert (IH' := IH (fun kv' rv Hin => H kv' rv (or_intror Hin))).
  unfold hit at 1.
  destruct (lookup (fst kv) re) as [rv|] eqn:E.
  - pose proof (H kv rv (or_introl eq_refl) E). lia.
  - simpl. pose proof (size_pos (snd kv)). lia.
Qed.

Lemma list_sum_step a l : list_sum (a :: l) = a + list_sum l.
Proof. reflexivity. Qed.

Lemma hit_cons k0 v0 re kv :
  hit ((k0, v0) :: re) kv
  = if (fst kv =? k0)%string then size v0 else hit re kv.
Proof. unfold hit. simpl. now destruct (fst kv =? k0)%string. Qed.

Lemma has_key_cons k0 k v (le : list (string * Value)) :
  has_key k0 ((k, v) :: le) = (k0 =? k)%string || has_key k0 le.
Proof. unfold has_key. simpl. now destruct (k0 =? k)%string. Qed.

Lemma hits_of_cons k0 v0 (re le : list (string * Value)) :
  distinct (keys le) = true ->
  list_sum (map (hit ((k0, v0) :: re)) le)
  <= (if has_key k0 le then size v0 else 0) + list_sum (map (hit re) le).
Proof.
  induction le as [|[k v] le IH]; intros Hd; [simpl; lia|].
  cbn [keys map distinct fst] in Hd.
  apply andb_true_iff in Hd as [Hk Hd]. apply negb_true_iff in Hk.
  specialize (IH Hd).
  cbn [map]. rewrite !list_sum_step, hit_cons, has_key_cons. cbn [fst].
  rewrite (String.eqb_sym k0 k).
  destruct (String.eqb_spec k k0) as [->|Hne]; simpl orb.
  - assert (Hno : has_key k0 le = false).
    { apply has_key_false. intros Hin.
      apply existsb_eqb_In in Hin. unfold keys in Hin. congruence. }
    rewrite Hno in IH. lia.
  - destruct (has_key k0 le); lia.
Qed.

Lemma right_side_length path (le re : list (string * Value)) :
  distinct (keys le) = true ->
  list_sum (map (hit re) le) + List.length (for_right_keys path le re)
  <= list_sum (map (fun kv => size (snd kv)) re).
Proof.
  intros Hd. unfold for_right_keys.
  induction re as [|[k0 v0] re IH]; simpl.
  - assert (H : list_sum (map (hit []) le) = 0).
    { clear Hd. induction le as [|kv le IHle]; simpl; [reflexivity|].
      now rewrite IHle. }
    lia.
  - rewrite length_app.
    pose proof (hits_of_cons k0 v0 re le Hd) as H.
    pose proof (size_pos v0).
    destruct (has_key k0 le); simpl in *; lia.
Qed.

Lemma for_indices_length body i ls rs :
  (forall j x y, In x ls -> In y rs ->
                 List.length (body j x y) <= size x + size y) ->
  List.length (for_indices body i ls rs)
  <= list_sum (map size ls) + list_sum (map size rs).
Proof.
  revert i rs. induction ls as [|x ls IH]; intros i rs H; simpl; [lia|].
  destruct rs as [|y rs]; simpl; [lia|].
  rewrite length_app.
  pose proof (H i x y (or_introl eq_refl) (or_introl eq_refl)).
  assert (IH' := IH (S i) rs
                    (fun j a b Ha Hb => H j a b (or_intror Ha) (or_intror Hb))).
  lia.
Qed.

Lemma compare_length_bound l :
  forall path r, wf l = true ->
                 List.length (compare path l r) <= size l + size r.
Proof.
  induction l as [a|xs IH|es IH] using Value_ind; intros path r Hwf.
  - rewrite compare_Leaf_l.
    pose proof (own_record_length path (Leaf a) r). pose proof (size_pos r).
    simpl. lia.
  - destruct r as [b|ys|re].
    + rewrite compare_Leaf_r.
      pose proof (own_record_length path (Sequence xs) (Leaf b)). simpl. lia.
    + rewrite compare_Sequence, !length_app.
      pose proof (own_record_length path (Sequence xs) (Sequence ys)).
      pose proof (length_record_length path xs ys).
      assert (Hm : List.length
                     (for_indices (fun i x y => compare (index_path path i) x y)
                                  0 xs ys)
                   <= list_sum (map size xs) + list_sum (map size ys)).
      { apply for_indices_length. intros j x y Hx _.
        rewrite Forall_forall in IH.
        exact (IH x Hx _ y (wf_item _ _ Hwf Hx)). }
      simpl. lia.
    + rewrite compare_Sequence_Mapping.
      pose proof (own_record_length path (Sequence xs) (Mapping re)).
      simpl. lia.
  - destruct r as [b|ys|re].
    + rewrite compare_Leaf_r.
      pose proof (own_record_length path (Mapping es) (Leaf b)). simpl. lia.
    + rewrite compare_Mapping_Sequence.
      pose proof (own_record_length path (Mapping es) (Sequence ys)).
      simpl. lia.
    + rewrite compare_Mapping, !length_app.
      pose proof (own_record_length path (Mapping es) (Mapping re)).
      pose proof (right_side_length path es re (wf_distinct _ Hwf)).
      assert (Hm : List.length
                     (for_left_keys
                        (fun k lv rv => compare (key_path path k) lv rv)
                        path es re)
                   <= list_sum (map (fun kv => size (snd kv)) es)
                      + list_sum (map (hit re) es)).
      { apply for_left_keys_length. intros kv rv Hin _.
        rewrite Forall_forall in IH.
        destruct kv as [k v].
        exact (IH _ Hin _ rv (wf_entry _ _ _ Hwf Hin)). }
      simpl. lia.
Qed.

(** X11: [compare] prints at most as many records as the two values
    have nodes together. *)
Theorem compare_output_bound path l r :
  wf l = true ->
  List.length (compare path l r) <= size l + size r.
Proof. intros Hwf. now apply compare_length_bound. Qed.

Lemma compare_output_bound_witness :
  List.length (compare "root" (Mapping [("a", int 1)]) (Mapping [("b", int 1)]))
  <= size (Mapping [("a", int 1)]) + size (Mapping [("b", int 1)]).
Proof. apply compare_output_bound. reflexivity. Defined.
